(** * Scriptify: the conversion client ([App.jsx])

    A shallow embedding of the React component [App] of the Scriptify
    front end: its state variables, the asynchronous handler
    [handleConvert], the simulated progress timer, the request it sends and
    the view it renders, followed by the properties of the pipeline
    specification that concern this code.

    Conventions of the embedding.
    - A JavaScript string is a [string]; [String.prototype.includes] with an
      ASCII needle is byte-wise substring search.
    - A JavaScript number is a double, kept as the rational [Q] it stands
      for: [+] and [*] round their exact result to the nearest value with a
      53-bit significand, ties to even ([Js.add], [Js.mul]); comparisons,
      [Math.min] and [Math.round] are exact.  The exponent range of the
      format is left out: the numbers of the component lie between 0 and
      100, and a product [Math.random () * 15] is either 0 or far above the
      smallest normal double for any draw that is a multiple of 2^-53.
      [Math.random ()] is an input of the timer event.
    - A [useState] variable is a field of [AppState]; a setter is a function
      on [AppState]; the synchronous stretch of a handler between two
      [await]s is one transition of the [World].
    - A closure sees the state of the render that created it: a handler
      takes that state ([seen]) apart from the world it updates. *)

From Stdlib Require Import String Ascii List Bool Arith ZArith Lia.
From Stdlib Require Import QArith Qminmax Qround Qpower Qreduction.
From Stdlib Require Import DecimalString Sorted Lqa.
Import ListNotations.

Local Open Scope string_scope.
Local Open Scope list_scope.

(** ** JavaScript helpers *)

Module Js.

(** [s.includes(needle)] *)
Fixpoint includes (s needle : string) : bool :=
  String.prefix needle s ||
  match s with
  | EmptyString => false
  | String _ rest => includes rest needle
  end.

(** Truthiness of a string: only the empty string is falsy. *)
Definition truthy (s : string) : bool :=
  match s with
  | EmptyString => false
  | String _ _ => true
  end.

(** [a || b] on strings. *)
Definition or_else (a b : string) : string :=
  if truthy a then a else b.

(** [`${n}`] for a non-negative integer. *)
Definition of_nat (n : nat) : string :=
  NilZero.string_of_uint (Nat.to_uint n).

(** [x < y] on numbers. *)
Definition ltb (x y : Q) : bool := negb (Qle_bool y x).

(** The exponent of a positive number: [2^e <= x < 2^(e+1)]. *)
Definition ilog2 (x : Q) : Z :=
  let k := Z.log2_up (Zpos (Qden x)) in
  (Z.log2 (Qfloor (x * 2 ^ k)) - k)%Z.

(** The nearest integer, a half going to the even neighbour. *)
Definition nearestEven (x : Q) : Z :=
  let f := Qfloor x in
  match Qcompare (x - inject_Z f) (1 # 2) with
  | Lt => f
  | Gt => (f + 1)%Z
  | Eq => if Z.even f then f else (f + 1)%Z
  end.

(** The double nearest to a real number: 53 significant bits, round to
    nearest, ties to even.  The exponent range is left out: no overflow and
    no subnormal numbers, which the values of the component never come
    near. *)
Definition double (x : Q) : Q :=
  match Qcompare x 0 with
  | Eq => 0
  | Gt => let q := (ilog2 x - 52)%Z in
          Qred (inject_Z (nearestEven (x / 2 ^ q)) * 2 ^ q)
  | Lt => let q := (ilog2 (- x) - 52)%Z in
          Qred (- (inject_Z (nearestEven (- x / 2 ^ q)) * 2 ^ q))
  end.

(** [x + y] and [x * y] on numbers. *)
Definition add (x y : Q) : Q := double (x + y).
Definition mul (x y : Q) : Q := double (x * y).

(** [Math.round(x)]: the nearest integer, halves rounded up. *)
Definition round (x : Q) : Z := Qfloor (x + (1 # 2)).

(** Values that the client only stores and prints. *)
Inductive Val :=
| VStr (s : string)
| VNum (n : Z)
| VBool (b : bool).

End Js.

(** ** State of the component *)

Record VideoInfo := mkVideoInfo {
  title : Js.Val;
  uploader : Js.Val;
  duration : Js.Val;
  view_count : Js.Val;
  upload_date : Js.Val
}.

Record AppState := mkApp {
  url : string;
  transcript : string;
  isLoading : bool;
  isSidebarOpen : bool;
  error : string;
  copySuccess : bool;
  progress : Q;
  progressMessage : string;
  summaryType : string;
  videoInfo : option VideoInfo
}.

(** The [useState] initial values. *)
Definition initialState : AppState :=
  mkApp "" "" false false "" false 0 "" "comprehensive" None.

Definition setUrl (v : string) (s : AppState) : AppState :=
  mkApp v (transcript s) (isLoading s) (isSidebarOpen s) (error s)
    (copySuccess s) (progress s) (progressMessage s) (summaryType s)
    (videoInfo s).

Definition setTranscript (v : string) (s : AppState) : AppState :=
  mkApp (url s) v (isLoading s) (isSidebarOpen s) (error s)
    (copySuccess s) (progress s) (progressMessage s) (summaryType s)
    (videoInfo s).

Definition setLoading (v : bool) (s : AppState) : AppState :=
  mkApp (url s) (transcript s) v (isSidebarOpen s) (error s)
    (copySuccess s) (progress s) (progressMessage s) (summaryType s)
    (videoInfo s).

Definition setSidebarOpen (v : bool) (s : AppState) : AppState :=
  mkApp (url s) (transcript s) (isLoading s) v (error s)
    (copySuccess s) (progress s) (progressMessage s) (summaryType s)
    (videoInfo s).

Definition setError (v : string) (s : AppState) : AppState :=
  mkApp (url s) (transcript s) (isLoading s) (isSidebarOpen s) v
    (copySuccess s) (progress s) (progressMessage s) (summaryType s)
    (videoInfo s).

Definition setCopySuccess (v : bool) (s : AppState) : AppState :=
  mkApp (url s) (transcript s) (isLoading s) (isSidebarOpen s) (error s)
    v (progress s) (progressMessage s) (summaryType s) (videoInfo s).

Definition setProgress (v : Q) (s : AppState) : AppState :=
  mkApp (url s) (transcript s) (isLoading s) (isSidebarOpen s) (error s)
    (copySuccess s) v (progressMessage s) (summaryType s) (videoInfo s).

Definition setProgressMessage (v : string) (s : AppState) : AppState :=
  mkApp (url s) (transcript s) (isLoading s) (isSidebarOpen s) (error s)
    (copySuccess s) (progress s) v (summaryType s) (videoInfo s).

Definition setSummaryType (v : string) (s : AppState) : AppState :=
  mkApp (url s) (transcript s) (isLoading s) (isSidebarOpen s) (error s)
    (copySuccess s) (progress s) (progressMessage s) v (videoInfo s).

Definition setVideoInfo (v : option VideoInfo) (s : AppState) : AppState :=
  mkApp (url s) (transcript s) (isLoading s) (isSidebarOpen s) (error s)
    (copySuccess s) (progress s) (progressMessage s) (summaryType s) v.

(** Statements of a handler read top to bottom: [s |> f |> g]. *)
Notation "x |> f" := (f x) (at level 45, left associativity, only parsing).

(** ** The request and the response *)

Inductive Json :=
| JString (s : string)
| JBool (b : bool).

Record Request := mkRequest {
  endpoint : string;
  method : string;
  headers : list (string * string);
  body : list (string * Json)
}.

(** An entry of [highlights] or [timestamps]. *)
Record Marker := mkMarker {
  marker_timestamp : Js.Val;
  marker_text : string
}.

(** The parsed response body [data], at the types of the interface
    contract: [error] may be absent, [text] is a string, [video_info] and
    the two marker lists may be absent. *)
Record Payload := mkPayload {
  data_error : option string;
  data_text : string;
  data_video_info : option VideoInfo;
  data_highlights : option (list Marker);
  data_timestamps : option (list Marker)
}.

(** What [await response.json()] gives: the parsed body, or a rejection
    with the message of the error (the body cannot be read, or does not
    parse). *)
Inductive Parsed :=
| ParsedOk (data : Payload)
| ParseError (message : string).

(** What [await response.text()] gives: the text, or a rejection with the
    message of the read error. *)
Inductive TextRead :=
| TextOk (content : string)
| TextError (message : string).

(** A response, with what each of the two ways to read its body gives;
    [handleConvert] uses one of them, by [ok]. *)
Record Response := mkResponse {
  ok : bool;
  status : nat;
  text_read : TextRead;
  json : Parsed
}.

(** ** The world: component state, pending continuation, timers, network *)

(** Where the one running call of [handleConvert] is suspended. *)
Inductive Pending :=
| NoCall
| AwaitFetch
| AwaitBody (response : Response).

Record World := mkWorld {
  ui : AppState;
  call : Pending;
  intervals : nat;      (* [setInterval] timers not yet cleared *)
  clearTimers : nat;    (* pending 2 s timeouts that clear the progress *)
  pasteTimers : nat;    (* pending 500 ms auto-convert timeouts *)
  sent : list Request   (* requests handed to [fetch], oldest first *)
}.

Definition initialWorld : World :=
  mkWorld initialState NoCall 0 0 0 [].

Definition with_ui (f : AppState -> AppState) (w : World) : World :=
  mkWorld (f (ui w)) (call w) (intervals w) (clearTimers w) (pasteTimers w)
    (sent w).

(** ** [handleConvert] *)

Definition invalidUrlMessage : string := "Please enter a valid YouTube URL".

(** The guard of [handleConvert], negated: the URL names one of the two
    accepted hosts. *)
Definition acceptsUrl (u : string) : bool :=
  Js.includes u "youtube.com" || Js.includes u "youtu.be".

(** The argument of [JSON.stringify], key order as written. *)
Definition requestBody (seen : AppState) : list (string * Json) :=
  [ ("url", JString (url seen));
    ("summary_type", JString (summaryType seen));
    ("include_timestamps", JBool true);
    ("include_chapters", JBool false);
    ("include_highlights", JBool true) ].

Definition convertRequest (seen : AppState) : Request :=
  mkRequest "/transcribe-summary/" "POST"
    [("Content-Type", "application/json")] (requestBody seen).

(** The first stretch of [handleConvert], up to [await fetch(...)]. *)
Definition handleConvert (seen : AppState) (w : World) : World :=
  if negb (Js.includes (url seen) "youtube.com")
     && negb (Js.includes (url seen) "youtu.be")
  then with_ui (setError invalidUrlMessage) w
  else
    mkWorld
      (ui w |> setLoading true |> setSidebarOpen true |> setError ""
            |> setCopySuccess false |> setProgress 0
            |> setProgressMessage "Initializing...")
      AwaitFetch
      (S (intervals w))
      (clearTimers w) (pasteTimers w)
      (sent w ++ [convertRequest seen]).

(** The callback of [setInterval], run once a second with a fresh
    [Math.random ()]. *)
Definition tickMessage (newProgress : Q) : string :=
  if Js.ltb newProgress 15 then "Initializing audio processing..."
  else if Js.ltb newProgress 30 then "Extracting high-quality audio..."
  else if Js.ltb newProgress 45 then "Analyzing speech patterns..."
  else if Js.ltb newProgress 60 then "Transcribing audio content..."
  else if Js.ltb newProgress 75 then "Detecting chapters and highlights..."
  else "Generating intelligent summary...".

Definition progressTick (random : Q) (s : AppState) : AppState :=
  let prev := progress s in
  if Js.ltb prev 90 then
    let newProgress := Js.add prev (Js.mul random 15) in
    s |> setProgressMessage (tickMessage newProgress)
      |> setProgress (Qmin newProgress 90)
  else s.

(** The stretch after [await fetch(...)]: the timer of this call is
    cleared and the body is awaited ([response.text ()] when the status is
    not ok, [response.json ()] otherwise). *)
Definition afterFetch (r : Response) (w : World) : World :=
  mkWorld
    (ui w |> setProgress 95 |> setProgressMessage "Finalizing summary...")
    (AwaitBody r)
    (pred (intervals w))
    (clearTimers w) (pasteTimers w) (sent w).

Definition defaultErrorMessage : string :=
  "Failed to convert video. Please try again.".

(** [catch (error) { ... }], given [error.message]. *)
Definition catchBlock (message : string) (s : AppState) : AppState :=
  s |> setError (Js.or_else message defaultErrorMessage)
    |> setProgress 0
    |> setProgressMessage "".

(** [finally { ... }] *)
Definition finallyBlock (s : AppState) : AppState :=
  s |> setLoading false.

Definition httpErrorMessage (r : Response) : string :=
  "HTTP error! Status: " ++ Js.of_nat (status r).

(** What the stretch after the body throws, if anything: the message of the
    [Error] thrown, or the payload to consume. *)
Definition bodyOutcome (r : Response) : string + Payload :=
  if negb (ok r) then
    match text_read r with
    | TextError message => inl message
    | TextOk _ => inl (httpErrorMessage r)
    end
  else
    match json r with
    | ParseError message => inl message
    | ParsedOk data =>
        match data_error data with
        | Some e => if Js.truthy e then inl e else inr data
        | None => inr data
        end
    end.

(** The last stretch of the [try] block. *)
Definition consume (data : Payload) (s : AppState) : AppState :=
  s |> setProgress 100
    |> setProgressMessage "Complete!"
    |> setTranscript (data_text data)
    |> setVideoInfo (data_video_info data)
    |> setError "".

Definition afterBody (r : Response) (w : World) : World :=
  match bodyOutcome r with
  | inl message =>
      mkWorld (ui w |> catchBlock message |> finallyBlock) NoCall
        (intervals w) (clearTimers w) (pasteTimers w) (sent w)
  | inr data =>
      mkWorld (ui w |> consume data |> finallyBlock) NoCall
        (intervals w) (S (clearTimers w)) (pasteTimers w) (sent w)
  end.

(** [fetch] itself rejects: control goes from the [await] to [catch], past
    [clearInterval]. *)
Definition fetchRejected (message : string) (w : World) : World :=
  mkWorld (ui w |> catchBlock message |> finallyBlock) NoCall
    (intervals w) (clearTimers w) (pasteTimers w) (sent w).

(** The callback of the 2 s timeout set on success. *)
Definition clearProgress (s : AppState) : AppState :=
  s |> setProgress 0 |> setProgressMessage "".

(** ** The other handlers *)

Inductive SummaryOption := Comprehensive | Brief | Bullets | Academic.

(** The [value] attribute of each [<option>]. *)
Definition optionValue (o : SummaryOption) : string :=
  match o with
  | Comprehensive => "comprehensive"
  | Brief => "brief"
  | Bullets => "bullets"
  | Academic => "academic"
  end.

(** [handleCopy], once [writeText] has resolved or rejected. *)
Definition handleCopy (written : bool) (s : AppState) : AppState :=
  if written then s |> setCopySuccess true
  else s |> setError "Failed to copy text to clipboard".

(** [handleKeyDown] on Ctrl+V, once [readText ()] has resolved with [text].
    [handleDownload] touches no state variable and has no event here. *)
Definition handleKeyDown (text : string) (w : World) : World :=
  if Js.includes text "youtube.com" || Js.includes text "youtu.be" then
    mkWorld (ui w |> setUrl text) (call w) (intervals w) (clearTimers w)
      (S (pasteTimers w)) (sent w)
  else w.

(** ** Events of the page *)

Inductive Event :=
| TypeUrl (text : string)            (* [onChange] of the input *)
| SelectSummary (o : SummaryOption)  (* [onChange] of the select *)
| ClickConvert                       (* the button, disabled while loading *)
| CloseSidebar                       (* the close button or the overlay *)
| CopyDone                           (* [writeText] resolved *)
| CopyFailed                         (* [writeText] rejected *)
| CopyTimeout                        (* 3 s after [copySuccess] was set *)
| Pasted (text : string)             (* Ctrl+V, [readText] resolved *)
| PasteFailed                        (* Ctrl+V, [readText] rejected *)
| PasteTimeout                       (* 500 ms after an accepted paste *)
| Tick (random : Q)                  (* an interval timer fires *)
| FetchRejected (message : string)   (* [fetch] rejected *)
| FetchResolved (r : Response)       (* [fetch] resolved *)
| BodyRead                           (* the awaited body arrived *)
| ClearTimeout.                      (* a 2 s timeout fires *)

Definition step (e : Event) (w : World) : World :=
  match e with
  | TypeUrl text => with_ui (setUrl text) w
  | SelectSummary o => with_ui (setSummaryType (optionValue o)) w
  | ClickConvert =>
      if isLoading (ui w) then w else handleConvert (ui w) w
  | CloseSidebar => with_ui (setSidebarOpen false) w
  | CopyDone => with_ui (handleCopy true) w
  | CopyFailed => with_ui (handleCopy false) w
  | CopyTimeout => with_ui (setCopySuccess false) w
  | Pasted text => handleKeyDown text w
  | PasteFailed => with_ui (setError "Failed to read from clipboard") w
  | PasteTimeout =>
      (* [handleKeyDown] is memoised with no dependencies: the
         [handleConvert] it calls is the one of the first render. *)
      match pasteTimers w with
      | O => w
      | S n =>
          handleConvert initialState
            (mkWorld (ui w) (call w) (intervals w) (clearTimers w) n (sent w))
      end
  | Tick random =>
      match intervals w with
      | O => w
      | S _ => with_ui (progressTick random) w
      end
  | FetchRejected message =>
      match call w with
      | AwaitFetch => fetchRejected message w
      | _ => w
      end
  | FetchResolved r =>
      match call w with
      | AwaitFetch => afterFetch r w
      | _ => w
      end
  | BodyRead =>
      match call w with
      | AwaitBody r => afterBody r w
      | _ => w
      end
  | ClearTimeout =>
      match clearTimers w with
      | O => w
      | S n =>
          mkWorld (clearProgress (ui w)) (call w) (intervals w) n
            (pasteTimers w) (sent w)
      end
  end.

(** The world after a list of events, and every world on the way. *)
Definition run (events : list Event) (w : World) : World :=
  fold_left (fun w e => step e w) events w.

Fixpoint trace (events : list Event) (w : World) : list World :=
  match events with
  | [] => []
  | e :: rest => step e w :: trace rest (step e w)
  end.

(** [Math.random ()] lies in [0, 1). *)
Definition wellFormed (e : Event) : Prop :=
  match e with
  | Tick random => (0 <= random /\ random < 1)%Q
  | _ => True
  end.

Inductive Reachable : World -> Prop :=
| reach_init : Reachable initialWorld
| reach_step e w : Reachable w -> wellFormed e -> Reachable (step e w).

(** ** The view

    What the returned JSX shows, as far as it depends on the state. *)

(** The five rows of the "Video Information" card. *)
Record VideoCard := mkCard {
  row_title : Js.Val;
  row_creator : Js.Val;
  row_duration : Js.Val;
  row_views : Js.Val;
  row_published : Js.Val
}.

Record SummaryBlock := mkSummary {
  shown_video : option VideoCard;   (* [videoInfo && ...] *)
  shown_copied : bool;              (* [copySuccess && ...] *)
  shown_text : string               (* [{transcript}] *)
}.

Inductive SidebarBody :=
| Processing (percent : Z) (barWidth : Q) (message : string)
| Settled (summary : option SummaryBlock) (alert : option string).

Record View := mkView {
  input_value : string;
  select_value : string;
  button_disabled : bool;
  button_label : string;
  sidebar_open : bool;
  sidebar_body : SidebarBody
}.

Definition videoCard (v : VideoInfo) : VideoCard :=
  mkCard (title v) (uploader v) (duration v) (view_count v) (upload_date v).

Definition render (s : AppState) : View :=
  mkView (url s) (summaryType s) (isLoading s)
    (if isLoading s then "Converting..." else "Convert")
    (isSidebarOpen s)
    (if isLoading s then
       Processing (Js.round (progress s)) (progress s) (progressMessage s)
     else
       Settled
         (if Js.truthy (transcript s) then
            Some (mkSummary (option_map videoCard (videoInfo s))
                    (copySuccess s) (transcript s))
          else None)
         (if Js.truthy (error s) then Some (error s) else None)).

(** The percentage printed while loading, if any. *)
Definition shownPercent (v : View) : option Z :=
  match sidebar_body v with
  | Processing percent _ _ => Some percent
  | Settled _ _ => None
  end.

Definition shownAlert (v : View) : option string :=
  match sidebar_body v with
  | Processing _ _ _ => None
  | Settled _ alert => alert
  end.

Definition shownSummary (v : View) : option SummaryBlock :=
  match sidebar_body v with
  | Processing _ _ _ => None
  | Settled summary _ => summary
  end.

(** ** Observations on the requests *)

Fixpoint field (key : string) (fields : list (string * Json)) : option Json :=
  match fields with
  | [] => None
  | (k, v) :: rest => if String.eqb k key then Some v else field key rest
  end.

(** The requests that [w'] sent beyond those of [w]. *)
Definition newRequests (w w' : World) : list Request :=
  skipn (length (sent w)) (sent w').

(** What a click forwards to the back end as [url] when the input reads
    [u]: the [url] field of the request it sends, if it sends one. *)
Definition forwardedUrl (u : string) (w : World) : option Json :=
  let typed := step (TypeUrl u) w in
  match newRequests typed (step ClickConvert typed) with
  | r :: _ => field "url" (body r)
  | [] => None
  end.

(** ** The URL patterns of the specification *)

Definition dropPrefix (p s : string) : string :=
  if String.prefix p s
  then String.substring (String.length p)
         (String.length s - String.length p) s
  else s.

Definition startsWithHost (host s : string) : bool :=
  String.prefix host s
  && match String.get (String.length host) s with
     | None => true
     | Some c =>
         Ascii.eqb c "/" || Ascii.eqb c "?" || Ascii.eqb c "#"
     end.

(** Modelled from the spec: the two accepted URL patterns of the URL
    Validator (sections 4.1 and 8), which is not part of the sources and
    which the spec gives only by its two host families and the example
    "https://youtu.be/abc123".  Read as widely as these words allow: an
    optional "http://" or "https://", an optional "www." or "m.", the host
    "youtube.com" or "youtu.be", and then nothing or a path, query or
    fragment. *)
Definition matchesUrlPattern (u : string) : bool :=
  let s := dropPrefix "https://" (dropPrefix "http://" u) in
  let s := dropPrefix "m." (dropPrefix "www." s) in
  startsWithHost "youtube.com" s || startsWithHost "youtu.be" s.

(** ** The first version of the component

    [frontend/text converter/src/App.jsx]: no progress, no summary type, no
    video information; the same guard in front of a different request. *)

Module Legacy.

Record AppState := mkApp {
  url : string;
  transcript : string;
  isLoading : bool;
  isSidebarOpen : bool;
  error : string;
  copySuccess : bool
}.

Definition setLoading (v : bool) (s : AppState) : AppState :=
  mkApp (url s) (transcript s) v (isSidebarOpen s) (error s) (copySuccess s).

Definition setSidebarOpen (v : bool) (s : AppState) : AppState :=
  mkApp (url s) (transcript s) (isLoading s) v (error s) (copySuccess s).

Definition setError (v : string) (s : AppState) : AppState :=
  mkApp (url s) (transcript s) (isLoading s) (isSidebarOpen s) v
    (copySuccess s).

Definition setCopySuccess (v : bool) (s : AppState) : AppState :=
  mkApp (url s) (transcript s) (isLoading s) (isSidebarOpen s) (error s) v.

Definition convertRequest (seen : AppState) : Request :=
  mkRequest "http://localhost:8001/transcribe-json/" "POST"
    [("Content-Type", "application/json")] [("url", JString (url seen))].

(** The first stretch of [handleConvert]: the new state, and the request
    handed to [fetch] if the guard lets the call through. *)
Definition handleConvert (seen s : AppState) : AppState * option Request :=
  if negb (Js.includes (url seen) "youtube.com")
     && negb (Js.includes (url seen) "youtu.be")
  then (setError invalidUrlMessage s, None)
  else
    (s |> setLoading true |> setSidebarOpen true |> setError ""
       |> setCopySuccess false,
     Some (convertRequest seen)).

End Legacy.

(** ** Copy and download

    [handleCopy] hands the transcript it sees to [writeText];
    [handleDownload] wraps it in a plain-text blob and clicks a link that
    saves it under a fixed name. *)

Definition clipboardText (seen : AppState) : string := transcript seen.

Record Download := mkDownload {
  file_name : string;
  mime_type : string;
  content : string
}.

Definition handleDownload (seen : AppState) : Download :=
  mkDownload "video-summary.txt" "text/plain" (transcript seen).

(** ** The rest of the first version

    The stretch of the first [handleConvert] after [await fetch(...)], with
    its [catch] and [finally], and its download. *)

Module LegacyCall.

Definition setTranscript (v : string) (s : Legacy.AppState) : Legacy.AppState :=
  Legacy.mkApp (Legacy.url s) v (Legacy.isLoading s) (Legacy.isSidebarOpen s)
    (Legacy.error s) (Legacy.copySuccess s).

(** From the response to the end of the call. *)
Definition afterFetch (r : Response) (s : Legacy.AppState) : Legacy.AppState :=
  match bodyOutcome r with
  | inl message =>
      s |> Legacy.setError (Js.or_else message defaultErrorMessage)
        |> Legacy.setLoading false
  | inr data =>
      s |> setTranscript (data_text data) |> Legacy.setLoading false
  end.

(** [fetch] itself rejects. *)
Definition fetchRejected (message : string) (s : Legacy.AppState)
  : Legacy.AppState :=
  s |> Legacy.setError (Js.or_else message defaultErrorMessage)
    |> Legacy.setLoading false.

(** How the awaited [fetch] ends. *)
Inductive Fetched :=
| Rejected (message : string)
| Resolved (r : Response).

(** The end of the call, on the state [s] that the component has by then:
    while the call was suspended other handlers may have run. *)
Definition settle (f : Fetched) (s : Legacy.AppState) : Legacy.AppState :=
  match f with
  | Rejected message => fetchRejected message s
  | Resolved r => afterFetch r s
  end.

Definition handleDownload (seen : Legacy.AppState) : Download :=
  mkDownload "transcript.txt" "text/plain" (Legacy.transcript seen).

End LegacyCall.

(** ** The push scripts

    [push-both.sh] and the function [push_to_repositories] of
    [push-to-both.sh].  A script is a function of its arguments and of what
    [git] answers; it yields what it printed and ran, in order, and its exit
    status.  [git] is an input: its answer may depend on the commands run
    before. *)

Module Sh.

Inductive Git :=
| Add (path : string)                 (* [git add path] *)
| Commit (message : string)           (* [git commit -m message] *)
| Push (remote branch : string)       (* [git push remote branch] *)
| BranchShowCurrent                   (* [git branch --show-current] *)
| BranchMove (name : string).         (* [git branch -M name] *)

Record Answer := mkAnswer {
  exit_code : nat;
  stdout : string
}.

Definition Env : Type := list Git -> Git -> Answer.

Inductive Line :=
| Echo (text : string)
| Ran (c : Git).

(** The lines so far and [$?]. *)
Record State := mkState {
  lines : list Line;
  last_status : nat
}.

Definition start : State := mkState [] 0.

Fixpoint commands (ls : list Line) : list Git :=
  match ls with
  | [] => []
  | Echo _ :: rest => commands rest
  | Ran c :: rest => c :: commands rest
  end.

Definition echo (text : string) (sh : State) : State :=
  mkState (lines sh ++ [Echo text]) 0.

Definition git (env : Env) (c : Git) (sh : State) : State :=
  mkState (lines sh ++ [Ran c]) (exit_code (env (commands (lines sh)) c)).

(** [$(git ...)]: the command runs, its output is captured. *)
Definition capture (env : Env) (c : Git) (sh : State) : State * string :=
  (git env c sh, stdout (env (commands (lines sh)) c)).

(** [exit n] and [return n]. *)
Definition leave (n : nat) (sh : State) : State :=
  mkState (lines sh) n.

Definition dquote : string := String (Ascii.ascii_of_nat 34) "".
Definition esc : string := String (Ascii.ascii_of_nat 27) "".

(** The colours of [push-to-both.sh], as [echo -e] prints them. *)
Definition RED : string := esc ++ "[0;31m".
Definition GREEN : string := esc ++ "[0;32m".
Definition CYAN : string := esc ++ "[0;36m".
Definition NC : string := esc ++ "[0m".

Definition print_status (text : string) : State -> State :=
  echo (GREEN ++ "[INFO]" ++ NC ++ " " ++ text).

Definition print_error (text : string) : State -> State :=
  echo (RED ++ "[ERROR]" ++ NC ++ " " ++ text).

Definition print_success (text : string) : State -> State :=
  echo (GREEN ++ "[SUCCESS]" ++ NC ++ " " ++ text).

Definition print_header (text : string) (sh : State) : State :=
  sh |> echo (CYAN ++ "========================================" ++ NC)
     |> echo (CYAN ++ "🚀 " ++ text ++ NC)
     |> echo (CYAN ++ "========================================" ++ NC).

(** [push-both.sh], run with the positional parameters [args]. *)
Definition pushBoth (args : list string) (env : Env) : State :=
  let arg1 := nth 0 args "" in
  if Js.truthy arg1 then
    start |> echo "🔄 Adding changes..."
          |> git env (Add ".")
          |> echo "📝 Committing changes..."
          |> git env (Commit arg1)
          |> echo "🚀 Pushing to GitHub..."
          |> git env (Push "origin" "main")
          |> echo "🦊 Pushing to GitLab..."
          |> git env (Push "gitlab" "main")
          |> echo "✅ Successfully pushed to both GitHub and GitLab!"
          |> echo "🔗 GitLab pipeline should trigger automatically."
  else
    start |> echo ("Usage: ./push-both.sh " ++ dquote ++ "commit message"
                   ++ dquote)
          |> leave 1.

(** [push_to_repositories] of [push-to-both.sh].  Its one caller runs it as
    the condition of an [if], where [set -e] does not apply. *)
Definition push_to_repositories (env : Env) (sh : State) : State :=
  let sh := print_header "Pushing to Remote Repositories" sh in
  let (sh, shown) := capture env BranchShowCurrent sh in
  let current_branch := if Js.truthy shown then shown else "main" in
  let sh :=
    if Js.truthy shown then sh
    else sh |> print_status "Setting default branch to 'main'"
            |> git env (BranchMove "main") in
  let sh :=
    sh |> print_status ("Current branch: " ++ current_branch)
       |> echo ""
       |> print_status "📤 Pushing to GitHub (origin)..."
       |> git env (Push "origin" current_branch) in
  match last_status sh with
  | O =>
      let sh :=
        sh |> print_success "✅ Successfully pushed to GitHub!"
           |> echo ""
           |> print_status "📤 Pushing to GitLab (gitlab)..."
           |> git env (Push "gitlab" current_branch) in
      match last_status sh with
      | O =>
          sh |> print_success "✅ Successfully pushed to GitLab!"
             |> print_success
                  "🔧 GitLab CI/CD Pipeline should be triggered automatically!"
      | S _ =>
          sh |> print_error "❌ Failed to push to GitLab" |> leave 1
      end
  | S _ =>
      sh |> print_error "❌ Failed to push to GitHub" |> leave 1
  end.

End Sh.

(** ** Counting *)

Definition isClick (e : Event) : bool :=
  match e with
  | ClickConvert => true
  | _ => false
  end.

Definition clicks (events : list Event) : nat :=
  length (filter isClick events).

Definition isBodyRead (e : Event) : bool :=
  match e with
  | BodyRead => true
  | _ => false
  end.

(** The values the progress takes: the timer's, between 0 and 90, and the
    two constants. *)
Definition progressValue (p : Q) : Prop :=
  ((0 <= p /\ p <= 90) \/ p = 95 \/ p = 100)%Q.

(** The interval timers that no suspended call will clear any more: all of
    them, but the one a call waiting for [fetch] still holds. *)
Definition leakedIntervals (w : World) : nat :=
  match call w with
  | AwaitFetch => pred (intervals w)
  | _ => intervals w
  end.

(** ** Notions used in the statements *)

(** *** The simulated progress *)

(** The update of the progress by one draw of [Math.random ()], and the
    progress that the draws build up from 0. *)
Definition nextProgress (prev random : Q) : Q :=
  if Js.ltb prev 90 then Qmin (Js.add prev (Js.mul random 15)) 90 else prev.

Definition simulate (draws : list Q) : Q :=
  fold_left nextProgress draws 0.



(** A number that is a double, and the largest double below 1. *)
Definition isDouble (x : Q) : Prop := (Js.double x == x)%Q.

Definition maxDraw : Q := 1 - (1 # 9007199254740992).

Definition ticks (draws : list Q) (s : AppState) : AppState :=
  fold_left (fun s random => progressTick random s) draws s.

(** *** Sample responses *)

(** A response with a failure status, and one that is ok but carries an
    [error] field. *)
Definition serverError : Response :=
  mkResponse false 500 (TextOk "Internal Server Error")
    (ParseError "Unexpected token").

Definition errorField : Response :=
  mkResponse true 200 (TextOk "")
    (ParsedOk (mkPayload (Some "Video unavailable") "" None None None)).

(** A success body with video information and one highlight. *)
Definition samplePayload : Payload :=
  mkPayload None "A short summary."
    (Some (mkVideoInfo (Js.VStr "Talk") (Js.VStr "Speaker") (Js.VStr "12:30")
             (Js.VNum 1024) (Js.VStr "2024-01-01")))
    (Some [mkMarker (Js.VStr "00:05") "Opening"]) None.

(** An ok response with video information and an empty text. *)
Definition emptyTextSuccess : Response :=
  mkResponse true 200 (TextOk "")
    (ParsedOk
       (mkPayload None ""
          (Some (mkVideoInfo (Js.VStr "Talk") (Js.VStr "Speaker")
                   (Js.VStr "12:30") (Js.VNum 1024) (Js.VStr "2024-01-01")))
          None None)).

Definition sampleSuccess : Response :=
  mkResponse true 200 (TextOk "") (ParsedOk samplePayload).

(** *** The shape of a request *)

Definition summaryValues : list string :=
  map optionValue [Comprehensive; Brief; Bullets; Academic].

(** The shape of every body handed to [fetch]. *)
Definition fiveFields (r : Request) : Prop :=
  exists u t,
    body r = [ ("url", JString u);
               ("summary_type", JString t);
               ("include_timestamps", JBool true);
               ("include_chapters", JBool false);
               ("include_highlights", JBool true) ]
    /\ In t summaryValues.

(** *** The progress values of one call *)

Definition progressOf (w : World) : Q := progress (ui w).

(** The worlds of a call, from the click on: up to and including the first
    world in which the call is no longer suspended ... *)
Fixpoint untilSettled (ws : list World) : list World :=
  match ws with
  | [] => []
  | w :: rest =>
      match call w with
      | NoCall => [w]
      | _ => w :: untilSettled rest
      end
  end.

(** ... and the same without that last world. *)
Fixpoint whileSuspended (ws : list World) : list World :=
  match ws with
  | [] => []
  | w :: rest =>
      match call w with
      | NoCall => []
      | _ => w :: whileSuspended rest
      end
  end.

(** A call is suspended, the button is disabled, and no timeout of an
    earlier call is left to clear the progress. *)
Record Running (w : World) : Prop := mkRunning {
  running_call : call w <> NoCall;
  running_loading : isLoading (ui w) = true;
  running_no_timeout : clearTimers w = 0%nat;
  running_nonneg : (0 <= progress (ui w))%Q;
  running_double : isDouble (progress (ui w));
  running_below : (progress (ui w) <= 95)%Q;
  running_cap : call w = AwaitFetch -> (progress (ui w) <= 90)%Q
}.

(** How a transition leaves a running call: still running and no lower, or
    settled, either without an error and no lower, or with an error and at
    0. *)
Definition Continues (w w' : World) : Prop :=
  (call w' <> NoCall -> Running w' /\ (progressOf w <= progressOf w')%Q)
  /\ (call w' = NoCall ->
      (error (ui w') = "" -> (progressOf w <= progressOf w')%Q)
      /\ (error (ui w') <> "" -> progressOf w' = 0%Q)).

(** * Properties *)

(** ** Substring search *)

Section Includes.

Lemma prefix_app (needle s : string) :
  String.prefix needle s = true <-> exists rest, s = (needle ++ rest)%string.
Proof.
  revert s; induction needle as [|c needle IH]; intros s.
  - destruct s; simpl; (split; [intros _; eexists; reflexivity | reflexivity]).
  - destruct s as [|d s]; simpl.
    + split; [discriminate | intros [rest H]; discriminate].
    + destruct (Ascii.ascii_dec c d) as [->|Hcd].
      * rewrite IH. split; intros [rest H]; exists rest.
        -- now rewrite H.
        -- now injection H.
      * split; [discriminate | intros [rest H]; congruence].
Qed.

(** [includes] finds the needle exactly when the text splits around it. *)
Lemma includes_split (s needle : string) :
  Js.includes s needle = true <->
  exists before after, s = (before ++ needle ++ after)%string.
Proof.
  induction s as [|c s IH];
    cbn [Js.includes]; rewrite orb_true_iff, prefix_app.
  - split.
    + intros [[rest H]|H]; [|discriminate]. now exists "", rest.
    + intros [before [after H]]. left. destruct before; [|discriminate].
      now exists after.
  - rewrite IH. split.
    + intros [[rest H]|[before [after H]]].
      * now exists "", rest.
      * exists (String c before), after. simpl. now rewrite H.
    + intros [[|d before] [after H]]; simpl in H.
      * left. now exists after.
      * right. exists before, after. now injection H.
Qed.

Lemma includes_nonempty (s needle : string) :
  Js.includes s needle = true -> needle <> "" -> s <> "".
Proof.
  intros H Hn ->. simpl in H. rewrite orb_false_r in H.
  destruct needle; [now apply Hn | discriminate].
Qed.

End Includes.

(** The guard of [handleConvert] fires exactly on the rejected URLs. *)
Lemma guard_rejects (u : string) :
  negb (Js.includes u "youtube.com") && negb (Js.includes u "youtu.be")
  = negb (acceptsUrl u).
Proof. unfold acceptsUrl. now rewrite negb_orb. Qed.

Lemma acceptsUrl_nonempty (u : string) : acceptsUrl u = true -> u <> "".
Proof.
  unfold acceptsUrl. rewrite orb_true_iff.
  intros [H|H]; apply includes_nonempty in H; auto; discriminate.
Qed.

Lemma handleConvert_rejected (seen : AppState) (w : World) :
  acceptsUrl (url seen) = false ->
  handleConvert seen w = with_ui (setError invalidUrlMessage) w.
Proof. intros H. unfold handleConvert. now rewrite guard_rejects, H. Qed.

Lemma handleConvert_accepted (seen : AppState) (w : World) :
  acceptsUrl (url seen) = true ->
  handleConvert seen w =
  mkWorld
    (ui w |> setLoading true |> setSidebarOpen true |> setError ""
          |> setCopySuccess false |> setProgress 0
          |> setProgressMessage "Initializing...")
    AwaitFetch (S (intervals w)) (clearTimers w) (pasteTimers w)
    (sent w ++ [convertRequest seen]).
Proof. intros H. unfold handleConvert. now rewrite guard_rejects, H. Qed.

Lemma Legacy_handleConvert_rejected (seen s : Legacy.AppState) :
  acceptsUrl (Legacy.url seen) = false ->
  Legacy.handleConvert seen s = (Legacy.setError invalidUrlMessage s, None).
Proof. intros H. unfold Legacy.handleConvert. now rewrite guard_rejects, H. Qed.

Lemma acceptsUrl_iff (u : string) :
  acceptsUrl u = true <->
  exists before after,
    u = (before ++ "youtube.com" ++ after)%string
    \/ u = (before ++ "youtu.be" ++ after)%string.
Proof.
  unfold acceptsUrl. rewrite orb_true_iff, !includes_split. split.
  - intros [[b [a H]]|[b [a H]]]; exists b, a; auto.
  - intros [b [a [H|H]]]; [left|right]; now exists b, a.
Qed.

(** A text in which [includes] does not find the needle does not split
    around it. *)
Lemma no_occurrence (s needle : string) :
  Js.includes s needle = false ->
  forall before after, s <> (before ++ needle ++ after)%string.
Proof.
  intros H before after E.
  assert (Hin : Js.includes s needle = true).
  { apply includes_split. now exists before, after. }
  congruence.
Qed.

Lemma newRequests_app (w w' : World) (rs : list Request) :
  sent w' = sent w ++ rs -> newRequests w w' = rs.
Proof.
  intros H. unfold newRequests. rewrite H. clear H.
  generalize (sent w) as l. induction l as [|r l IH]; simpl; auto.
Qed.

(** ** Rejected input *)

(** C4, as stated, fails: the guard is a substring test, not a URL
    pattern.  The inputs "xyoutu.bey" and " youtu.be" match neither URL
    pattern, yet a click on Convert raises no error, sends the request with
    that text as [url], and leaves the call in flight with the loading flag
    on. *)
Lemma non_matching_input_is_sent :
  let w1 := step ClickConvert (step (TypeUrl "xyoutu.bey") initialWorld) in
  let w2 := step ClickConvert (step (TypeUrl " youtu.be") initialWorld) in
  matchesUrlPattern "xyoutu.bey" = false
  /\ matchesUrlPattern " youtu.be" = false
  /\ matchesUrlPattern "https://youtu.be/abc123" = true
  /\ error (ui w1) = "" /\ error (ui w2) = ""
  /\ forwardedUrl "xyoutu.bey" initialWorld = Some (JString "xyoutu.bey")
  /\ forwardedUrl " youtu.be" initialWorld = Some (JString " youtu.be")
  /\ call w1 = AwaitFetch /\ call w2 = AwaitFetch
  /\ isLoading (ui w1) = true /\ isLoading (ui w2) = true
  /\ fst (Legacy.handleConvert
            (Legacy.mkApp "xyoutu.bey" "" false false "" false)
            (Legacy.mkApp "xyoutu.bey" "" false false "" false))
     <> Legacy.setError invalidUrlMessage
          (Legacy.mkApp "xyoutu.bey" "" false false "" false)
  /\ snd (Legacy.handleConvert
            (Legacy.mkApp "xyoutu.bey" "" false false "" false)
            (Legacy.mkApp "xyoutu.bey" "" false false "" false))
     <> None.
Proof.
  cbv zeta. repeat split; try (vm_compute; reflexivity);
    vm_compute; discriminate.
Qed.

(** C4, amended. A click on Convert while the input holds a string in which
    neither "youtube.com" nor "youtu.be" occurs anywhere (as "not-a-url")
    ends in the invalid-URL error message, which the page shows; no request
    is handed to [fetch], no call is started, no timer is started and the
    loading flag stays off.  The first version of the component does the
    same: the error is set and no request is produced. *)
Theorem invalid_url_is_rejected (u : string) (w : World) (l : Legacy.AppState) :
  (forall before after, u <> (before ++ "youtube.com" ++ after)%string) ->
  (forall before after, u <> (before ++ "youtu.be" ++ after)%string) ->
  isLoading (ui w) = false ->
  let w' := step ClickConvert (step (TypeUrl u) w) in
  (error (ui w') = invalidUrlMessage
   /\ shownAlert (render (ui w')) = Some invalidUrlMessage
   /\ sent w' = sent w
   /\ call w' = call w
   /\ intervals w' = intervals w
   /\ isLoading (ui w') = false)
  /\ Legacy.handleConvert (Legacy.mkApp u "" false false "" false) l
     = (Legacy.setError invalidUrlMessage l, None).
Proof.
  intros Hcom Hbe Hl.
  assert (Hu : acceptsUrl u = false).
  { destruct (acceptsUrl u) eqn:E; [|reflexivity].
    apply acceptsUrl_iff in E. destruct E as [b [a [E|E]]].
    - now elim (Hcom b a).
    - now elim (Hbe b a). }
  split.
  - cbn [step with_ui ui setUrl isLoading]. rewrite Hl.
    rewrite handleConvert_rejected by exact Hu.
    unfold shownAlert, render. cbn. rewrite Hl. cbn.
    repeat split; reflexivity.
  - now apply Legacy_handleConvert_rejected.
Qed.

Lemma invalid_url_is_rejected_witness :
  let w' := step ClickConvert (step (TypeUrl "not-a-url") initialWorld) in
  error (ui w') = invalidUrlMessage
  /\ shownAlert (render (ui w')) = Some invalidUrlMessage
  /\ sent w' = []
  /\ call w' = NoCall
  /\ intervals w' = 0%nat
  /\ isLoading (ui w') = false.
Proof.
  exact (proj1 (invalid_url_is_rejected "not-a-url" initialWorld
                  (Legacy.mkApp "" "" false false "" false)
                  (no_occurrence "not-a-url" "youtube.com" eq_refl)
                  (no_occurrence "not-a-url" "youtu.be" eq_refl)
                  eq_refl)).
Defined.

(** C9. When the URL that [handleConvert] sees contains neither accepted
    host, the call only sets the error message: the loading flag, the
    sidebar flag, the transcript, the progress, the progress message and the
    video information keep their values (as do the URL, the copy flag and
    the summary type), nothing is handed to [fetch], no timer is started and
    no call is left suspended.  In the first version of the component the
    call likewise returns the state with only [error] replaced and no
    request. *)
Theorem rejected_call_only_sets_error
    (seen : AppState) (w : World) (lseen l : Legacy.AppState) :
  acceptsUrl (url seen) = false ->
  acceptsUrl (Legacy.url lseen) = false ->
  let w' := handleConvert seen w in
  (error (ui w') = invalidUrlMessage
   /\ isLoading (ui w') = isLoading (ui w)
   /\ isSidebarOpen (ui w') = isSidebarOpen (ui w)
   /\ transcript (ui w') = transcript (ui w)
   /\ progress (ui w') = progress (ui w)
   /\ progressMessage (ui w') = progressMessage (ui w)
   /\ videoInfo (ui w') = videoInfo (ui w)
   /\ url (ui w') = url (ui w)
   /\ copySuccess (ui w') = copySuccess (ui w)
   /\ summaryType (ui w') = summaryType (ui w))
  /\ (sent w' = sent w /\ call w' = call w /\ intervals w' = intervals w
      /\ clearTimers w' = clearTimers w /\ pasteTimers w' = pasteTimers w)
  /\ Legacy.handleConvert lseen l
     = (Legacy.mkApp (Legacy.url l) (Legacy.transcript l)
          (Legacy.isLoading l) (Legacy.isSidebarOpen l) invalidUrlMessage
          (Legacy.copySuccess l),
        None).
Proof.
  intros H HL w'. subst w'. rewrite handleConvert_rejected by exact H.
  rewrite Legacy_handleConvert_rejected by exact HL.
  cbn. repeat split; reflexivity.
Qed.

Lemma rejected_call_only_sets_error_witness :
  let w := step (TypeUrl "ftp://example.org/video") initialWorld in
  acceptsUrl (url (ui w)) = false
  /\ sent (handleConvert (ui w) w) = []
  /\ call (handleConvert (ui w) w) = NoCall
  /\ isLoading (ui (handleConvert (ui w) w)) = false.
Proof.
  split; [reflexivity|].
  pose (w := step (TypeUrl "ftp://example.org/video") initialWorld).
  pose (l := Legacy.mkApp "ftp://example.org/video" "" false false "" false).
  destruct (rejected_call_only_sets_error (ui w) w l l eq_refl eq_refl)
    as [[_ [Hl _]] [[Hs [Hc _]] _]].
  split; [exact Hs | split; [exact Hc | exact Hl]].
Defined.

(** ** Accepted input *)

Lemma click_accepted (u : string) (w : World) :
  acceptsUrl u = true ->
  isLoading (ui w) = false ->
  step ClickConvert (step (TypeUrl u) w) =
  mkWorld
    (setUrl u (ui w) |> setLoading true |> setSidebarOpen true |> setError ""
       |> setCopySuccess false |> setProgress 0
       |> setProgressMessage "Initializing...")
    AwaitFetch (S (intervals w)) (clearTimers w) (pasteTimers w)
    (sent w ++ [convertRequest (setUrl u (ui w))]).
Proof.
  intros Hu Hl. cbn [step with_ui ui setUrl isLoading]. rewrite Hl.
  now rewrite handleConvert_accepted by exact Hu.
Qed.

Lemma click_rejected (u : string) (w : World) :
  acceptsUrl u = false ->
  isLoading (ui w) = false ->
  step ClickConvert (step (TypeUrl u) w) =
  with_ui (setError invalidUrlMessage) (step (TypeUrl u) w).
Proof.
  intros Hu Hl. cbn [step with_ui ui setUrl isLoading]. rewrite Hl.
  now rewrite handleConvert_rejected by exact Hu.
Qed.

Lemma forwardedUrl_accepted (u : string) (w : World) :
  acceptsUrl u = true ->
  isLoading (ui w) = false ->
  forwardedUrl u w = Some (JString u).
Proof.
  intros Hu Hl. unfold forwardedUrl.
  rewrite (newRequests_app _ _ [convertRequest (setUrl u (ui w))]).
  - reflexivity.
  - now rewrite click_accepted.
Qed.

Lemma forwardedUrl_rejected (u : string) (w : World) :
  acceptsUrl u = false ->
  isLoading (ui w) = false ->
  forwardedUrl u w = None.
Proof.
  intros Hu Hl. unfold forwardedUrl.
  rewrite (newRequests_app _ _ []); [reflexivity|].
  rewrite click_rejected by assumption. cbn. now rewrite app_nil_r.
Qed.

(** C5, as stated, fails: for the input "https://youtu.be/abc123" the value
    handed on is the whole URL, not the identifier "abc123"; the component
    extracts nothing. *)
Lemma no_identifier_is_extracted :
  forwardedUrl "https://youtu.be/abc123" initialWorld
  = Some (JString "https://youtu.be/abc123")
  /\ forwardedUrl "https://youtu.be/abc123" initialWorld
     <> Some (JString "abc123").
Proof. split; [reflexivity | discriminate]. Qed.

(** C5, amended. For every input that contains one of the two accepted
    hosts, validation passes: the call goes on to the request, and the
    [url] field of that request is the input itself, unchanged and
    non-empty.  No identifier is extracted on the client.  The first
    version of the component forwards the URL in the same way. *)
Theorem accepted_url_is_forwarded_unchanged
    (u : string) (w : World) (l : Legacy.AppState) :
  acceptsUrl u = true ->
  isLoading (ui w) = false ->
  (forwardedUrl u w = Some (JString u)
   /\ u <> ""
   /\ call (step ClickConvert (step (TypeUrl u) w)) = AwaitFetch
   /\ error (ui (step ClickConvert (step (TypeUrl u) w))) = "")
  /\ exists l' r,
       Legacy.handleConvert (Legacy.mkApp u "" false false "" false) l
       = (l', Some r)
       /\ field "url" (body r) = Some (JString u).
Proof.
  intros Hu Hl. split.
  - split; [now apply forwardedUrl_accepted|].
    split; [now apply acceptsUrl_nonempty|].
    rewrite click_accepted by assumption. split; reflexivity.
  - unfold Legacy.handleConvert. rewrite guard_rejects. cbn [Legacy.url].
    rewrite Hu. cbn [negb]. eexists. eexists. split; reflexivity.
Qed.

Lemma accepted_url_is_forwarded_unchanged_witness :
  acceptsUrl "https://youtu.be/abc123" = true
  /\ forwardedUrl "https://youtu.be/abc123" initialWorld
     = Some (JString "https://youtu.be/abc123").
Proof.
  split; [reflexivity|].
  exact (proj1 (proj1 (accepted_url_is_forwarded_unchanged
                         "https://youtu.be/abc123" initialWorld
                         (Legacy.mkApp "" "" false false "" false)
                         eq_refl eq_refl))).
Defined.

(** C6, as stated, fails: the identifier "abc123" names neither host, so
    validating it ends in the invalid-URL error and nothing is forwarded. *)
Lemma canonical_identifier_is_rejected :
  acceptsUrl "abc123" = false
  /\ forwardedUrl "abc123" initialWorld = None
  /\ error (ui (step ClickConvert (step (TypeUrl "abc123") initialWorld)))
     = invalidUrlMessage.
Proof. repeat split. Qed.

(** C6, amended. Validation is idempotent on what it lets through: if the
    input [u] passes and [v] is what the request carries as [url], then [v]
    is [u], and validating [v] again passes and carries [v] unchanged. *)
Theorem validation_idempotent_on_accepted (u v : string) (w : World) :
  isLoading (ui w) = false ->
  forwardedUrl u w = Some (JString v) ->
  v = u /\ acceptsUrl v = true /\ forwardedUrl v w = Some (JString v).
Proof.
  intros Hl H. destruct (acceptsUrl u) eqn:Hu.
  - rewrite forwardedUrl_accepted in H by assumption.
    injection H as <-. repeat split; auto using forwardedUrl_accepted.
  - rewrite forwardedUrl_rejected in H by assumption. discriminate.
Qed.

Lemma validation_idempotent_on_accepted_witness :
  forwardedUrl "https://www.youtube.com/watch?v=abc123" initialWorld
  = Some (JString "https://www.youtube.com/watch?v=abc123")
  /\ acceptsUrl "https://www.youtube.com/watch?v=abc123" = true.
Proof.
  destruct (validation_idempotent_on_accepted
              "https://www.youtube.com/watch?v=abc123"
              "https://www.youtube.com/watch?v=abc123"
              initialWorld eq_refl eq_refl) as [_ [Ha Hf]].
  split; [exact Hf | exact Ha].
Defined.

(** ** Doubles

    Rounding to 53 significant bits: it keeps the order, leaves a double as
    it is, and gives a double. *)

Section Pow2.

Local Open Scope Q_scope.

Lemma pow2_pos (q : Z) : 0 < 2 ^ q.
Proof. now apply Qpower_0_lt. Qed.

Lemma pow2_nonzero (q : Z) : ~ 2 ^ q == 0.
Proof. intros H. pose proof (pow2_pos q) as Hp. rewrite H in Hp. discriminate. Qed.

Lemma pow2_le (a b : Z) : (a <= b)%Z -> 2 ^ a <= 2 ^ b.
Proof. intros H. apply Qpower_le_compat_l; [exact H | discriminate]. Qed.

Lemma pow2_lt (a b : Z) : (a < b)%Z -> 2 ^ a < 2 ^ b.
Proof. intros H. apply Qpower_lt_compat_l; [exact H | reflexivity]. Qed.

Lemma pow2_add (a b : Z) : 2 ^ (a + b) == 2 ^ a * 2 ^ b.
Proof. apply Qpower_plus. discriminate. Qed.

Lemma pow2_Z (k : Z) : (0 <= k)%Z -> inject_Z (2 ^ k) == 2 ^ k.
Proof. intros H. now rewrite Zpower_Qpower. Qed.

Lemma pow2_cancel (q : Z) : 2 ^ q * 2 ^ (- q) == 1.
Proof. rewrite <- pow2_add. now replace (q + - q)%Z with 0%Z by ring. Qed.

Lemma div_pow2 (x : Q) (q : Z) : x / 2 ^ q == x * 2 ^ (- q).
Proof. unfold Qdiv. now rewrite Qpower_opp. Qed.

(** Scaling by a power of two keeps the order. *)
Lemma scale_le (x y : Q) (q : Z) : x <= y -> x * 2 ^ q <= y * 2 ^ q.
Proof. intros H. apply Qmult_le_compat_r; [exact H|]. apply Qlt_le_weak, pow2_pos. Qed.

Lemma scale_lt (x y : Q) (q : Z) : x < y -> x * 2 ^ q < y * 2 ^ q.
Proof. intros H. apply Qmult_lt_compat_r; [apply pow2_pos | exact H]. Qed.

End Pow2.

Section Log.

Local Open Scope Q_scope.

Lemma scaled_ge_1 (x : Q) :
  0 < x -> 1 <= x * 2 ^ Z.log2_up (Zpos (Qden x)).
Proof.
  intros Hx. destruct x as [n d]. cbn [Qden].
  assert (Hn : (1 <= n)%Z).
  { unfold Qlt in Hx. cbn in Hx. lia. }
  assert (Hk : (0 <= Z.log2_up (Zpos d))%Z) by apply Z.log2_up_nonneg.
  rewrite <- (pow2_Z _ Hk).
  assert (Hd : (Zpos d <= 2 ^ Z.log2_up (Zpos d))%Z).
  { apply Z.log2_log2_up_spec. reflexivity. }
  unfold Qle, Qmult, inject_Z. cbn. nia.
Qed.

Lemma ilog2_spec (x : Q) :
  0 < x -> 2 ^ Js.ilog2 x <= x /\ x < 2 ^ (Js.ilog2 x + 1).
Proof.
  intros Hx. unfold Js.ilog2.
  set (k := Z.log2_up (Zpos (Qden x))).
  pose proof (scaled_ge_1 x Hx) as Hy. fold k in Hy.
  set (y := x * 2 ^ k) in *.
  assert (Hf : (1 <= Qfloor y)%Z).
  { change 1%Z with (Qfloor 1). now apply Qfloor_resp_le. }
  destruct (Z.log2_spec (Qfloor y)) as [Hlo Hhi]; [lia|].
  set (e := Z.log2 (Qfloor y)) in *.
  assert (He : (0 <= e)%Z) by apply Z.log2_nonneg.
  assert (Hx' : x == y * 2 ^ (- k)).
  { unfold y. rewrite <- Qmult_assoc, pow2_cancel. ring. }
  split.
  - replace (e - k)%Z with (e + - k)%Z by ring. rewrite pow2_add, Hx'.
    apply scale_le. rewrite <- (pow2_Z e He).
    apply Qle_trans with (inject_Z (Qfloor y)); [|apply Qfloor_le].
    rewrite <- Zle_Qle. exact Hlo.
  - replace (e - k + 1)%Z with ((e + 1) + - k)%Z by ring.
    rewrite pow2_add, Hx'. apply scale_lt.
    rewrite <- (pow2_Z (e + 1)) by lia.
    apply Qlt_le_trans with (inject_Z (Qfloor y + 1)); [apply Qlt_floor|].
    rewrite <- Zle_Qle. unfold Z.succ in Hhi. lia.
Qed.

Lemma ilog2_unique (x : Q) (e : Z) :
  2 ^ e <= x -> x < 2 ^ (e + 1) -> Js.ilog2 x = e.
Proof.
  intros Hlo Hhi.
  assert (Hx : 0 < x) by (eapply Qlt_le_trans; [apply (pow2_pos e) | exact Hlo]).
  destruct (ilog2_spec x Hx) as [Hlo' Hhi'].
  assert (H1 : (e < Js.ilog2 x + 1)%Z).
  { apply Qpower_lt_compat_l_inv with 2; [|reflexivity].
    eapply Qle_lt_trans; eassumption. }
  assert (H2 : (Js.ilog2 x < e + 1)%Z).
  { apply Qpower_lt_compat_l_inv with 2; [|reflexivity].
    eapply Qle_lt_trans; eassumption. }
  lia.
Qed.

Lemma ilog2_monotone (x y : Q) :
  0 < x -> x <= y -> (Js.ilog2 x <= Js.ilog2 y)%Z.
Proof.
  intros Hx Hxy.
  assert (Hy : 0 < y) by (eapply Qlt_le_trans; eassumption).
  destruct (ilog2_spec x Hx) as [Hlo _].
  destruct (ilog2_spec y Hy) as [_ Hhi].
  assert (H : (Js.ilog2 x < Js.ilog2 y + 1)%Z).
  { apply Qpower_lt_compat_l_inv with 2; [|reflexivity].
    eapply Qle_lt_trans; [exact Hlo|]. eapply Qle_lt_trans; eassumption. }
  lia.
Qed.

End Log.

Section Nearest.

Local Open Scope Q_scope.

Lemma nearestEven_Z (z : Z) : Js.nearestEven (inject_Z z) = z.
Proof.
  unfold Js.nearestEven. rewrite Qfloor_Z.
  assert (H : inject_Z z - inject_Z z == 0) by ring.
  rewrite H. reflexivity.
Qed.

Lemma nearestEven_compat (x y : Q) :
  x == y -> Js.nearestEven x = Js.nearestEven y.
Proof.
  intros H. unfold Js.nearestEven.
  assert (Hf : Qfloor x = Qfloor y) by now apply Qfloor_comp.
  rewrite Hf.
  assert (Hc : Qcompare (x - inject_Z (Qfloor y)) (1 # 2)
               = Qcompare (y - inject_Z (Qfloor y)) (1 # 2)).
  { apply Qcompare_comp; [|reflexivity]. now rewrite H. }
  now rewrite Hc.
Qed.

Lemma nearestEven_bounds (x : Q) :
  (Qfloor x <= Js.nearestEven x <= Qfloor x + 1)%Z.
Proof.
  unfold Js.nearestEven. destruct (Qcompare _ _); [destruct (Z.even _)| |]; lia.
Qed.

Lemma nearestEven_monotone (x y : Q) :
  x <= y -> (Js.nearestEven x <= Js.nearestEven y)%Z.
Proof.
  intros Hxy. pose proof (Qfloor_resp_le x y Hxy) as Hf.
  pose proof (nearestEven_bounds x) as Hx.
  pose proof (nearestEven_bounds y) as Hy.
  destruct (Z.eq_dec (Qfloor x) (Qfloor y)) as [E|E]; [|lia].
  unfold Js.nearestEven. rewrite <- E.
  destruct (Qcompare_spec (x - inject_Z (Qfloor x)) (1 # 2)) as [Hx1|Hx1|Hx1];
  destruct (Qcompare_spec (y - inject_Z (Qfloor x)) (1 # 2)) as [Hy1|Hy1|Hy1];
    try (destruct (Z.even (Qfloor x))); try lia; exfalso; lra.
Qed.

End Nearest.

Section Double.

Local Open Scope Q_scope.

Lemma double_zero : Js.double 0 = 0.
Proof. reflexivity. Qed.

Lemma double_pos_eq (x : Q) :
  0 < x ->
  Js.double x
  == inject_Z (Js.nearestEven (x / 2 ^ (Js.ilog2 x - 52)))
     * 2 ^ (Js.ilog2 x - 52).
Proof.
  intros Hx. unfold Js.double.
  destruct (Qcompare_spec x 0) as [H|H|H]; try (exfalso; lra).
  cbv zeta. apply Qred_correct.
Qed.

(** The scaled value lies between 2^52 and 2^53. *)
Lemma significand_bounds (x : Q) :
  0 < x ->
  2 ^ 52 <= x / 2 ^ (Js.ilog2 x - 52)
  /\ x / 2 ^ (Js.ilog2 x - 52) < 2 ^ 53.
Proof.
  intros Hx. destruct (ilog2_spec x Hx) as [Hlo Hhi].
  set (e := Js.ilog2 x) in *. rewrite div_pow2.
  replace (- (e - 52))%Z with (52 + - e)%Z by ring. split.
  - assert (H : 2 ^ 52 == 2 ^ e * 2 ^ (52 + - e)).
    { rewrite <- pow2_add. now replace (e + (52 + - e))%Z with 52%Z by ring. }
    rewrite H. now apply scale_le.
  - assert (H : 2 ^ 53 == 2 ^ (e + 1) * 2 ^ (52 + - e)).
    { rewrite <- pow2_add. now replace (e + 1 + (52 + - e))%Z with 53%Z by ring. }
    rewrite H. now apply scale_lt.
Qed.

Lemma nearest_significand (x : Q) :
  0 < x ->
  (2 ^ 52 <= Js.nearestEven (x / 2 ^ (Js.ilog2 x - 52)) <= 2 ^ 53)%Z.
Proof.
  intros Hx. destruct (significand_bounds x Hx) as [Hlo Hhi]. split.
  - rewrite <- (nearestEven_Z (2 ^ 52)). apply nearestEven_monotone.
    now rewrite pow2_Z by lia.
  - rewrite <- (nearestEven_Z (2 ^ 53)). apply nearestEven_monotone.
    rewrite pow2_Z by lia. now apply Qlt_le_weak.
Qed.

Lemma double_between (x : Q) :
  0 < x ->
  2 ^ Js.ilog2 x <= Js.double x /\ Js.double x <= 2 ^ (Js.ilog2 x + 1).
Proof.
  intros Hx. rewrite (double_pos_eq x Hx).
  destruct (nearest_significand x Hx) as [Hlo Hhi].
  set (e := Js.ilog2 x) in *. set (m := Js.nearestEven _) in *. split.
  - assert (H : 2 ^ e == 2 ^ 52 * 2 ^ (e - 52)).
    { rewrite <- pow2_add. now replace (52 + (e - 52))%Z with e by ring. }
    rewrite H. apply scale_le. rewrite <- pow2_Z by lia.
    now rewrite <- Zle_Qle.
  - assert (H : 2 ^ (e + 1) == 2 ^ 53 * 2 ^ (e - 52)).
    { rewrite <- pow2_add. now replace (53 + (e - 52))%Z with (e + 1)%Z by ring. }
    rewrite H. apply scale_le. rewrite <- pow2_Z by lia.
    now rewrite <- Zle_Qle.
Qed.

Lemma double_positive (x : Q) : 0 < x -> 0 < Js.double x.
Proof.
  intros Hx. eapply Qlt_le_trans; [apply (pow2_pos (Js.ilog2 x))|].
  now apply double_between.
Qed.

Lemma double_monotone_pos (x y : Q) :
  0 < x -> x <= y -> Js.double x <= Js.double y.
Proof.
  intros Hx Hxy.
  assert (Hy : 0 < y) by (eapply Qlt_le_trans; eassumption).
  pose proof (ilog2_monotone x y Hx Hxy) as He.
  destruct (Z.eq_dec (Js.ilog2 x) (Js.ilog2 y)) as [E|E].
  - rewrite (double_pos_eq x Hx), (double_pos_eq y Hy), E.
    apply scale_le. rewrite <- Zle_Qle. apply nearestEven_monotone.
    rewrite !div_pow2. now apply scale_le.
  - apply Qle_trans with (2 ^ (Js.ilog2 x + 1)); [now apply double_between|].
    apply Qle_trans with (2 ^ Js.ilog2 y); [|now apply double_between].
    apply pow2_le. lia.
Qed.

Lemma double_monotone (x y : Q) :
  0 <= x -> x <= y -> Js.double x <= Js.double y.
Proof.
  intros Hx Hxy. destruct (Qlt_le_dec 0 x) as [H|H].
  - now apply double_monotone_pos.
  - assert (E : x == 0) by lra.
    assert (Ex : Js.double x = 0).
    { unfold Js.double. now rewrite E. }
    rewrite Ex. destruct (Qlt_le_dec 0 y) as [Hy|Hy].
    + apply Qlt_le_weak. now apply double_positive.
    + assert (Ey : y == 0) by lra. unfold Js.double. rewrite Ey. cbn. lra.
Qed.

Lemma double_nonneg (x : Q) : 0 <= x -> 0 <= Js.double x.
Proof. intros H. rewrite <- double_zero. apply double_monotone; [lra | exact H]. Qed.

(** A value with a significand of at most 53 bits is its own rounding. *)
Lemma double_exact (x : Q) (m q : Z) :
  (0 < m < 2 ^ 53)%Z -> x == inject_Z m * 2 ^ q -> Js.double x == x.
Proof.
  intros Hm Hx.
  assert (Hpos : 0 < x).
  { rewrite Hx. apply Qmult_lt_0_compat; [|apply pow2_pos].
    rewrite <- (Zlt_Qlt 0). lia. }
  destruct (Z.log2_spec m) as [Hlo Hhi]; [lia|].
  set (l := Z.log2 m) in *.
  assert (Hl : (0 <= l <= 52)%Z).
  { split; [apply Z.log2_nonneg|].
    assert (H : (2 ^ l < 2 ^ 53)%Z) by lia.
    apply Z.pow_lt_mono_r_iff in H; lia. }
  assert (He : Js.ilog2 x = (l + q)%Z).
  { apply ilog2_unique; rewrite Hx.
    - rewrite pow2_add. apply scale_le. rewrite <- pow2_Z by lia.
      now rewrite <- Zle_Qle.
    - replace (l + q + 1)%Z with ((l + 1) + q)%Z by ring.
      rewrite pow2_add. apply scale_lt. rewrite <- pow2_Z by lia.
      rewrite <- Zlt_Qlt. unfold Z.succ in Hhi. lia. }
  rewrite (double_pos_eq x Hpos), He.
  assert (Hs : x / 2 ^ (l + q - 52) == inject_Z (m * 2 ^ (52 - l))).
  { rewrite div_pow2, Hx, inject_Z_mult, pow2_Z by lia.
    rewrite <- Qmult_assoc, <- pow2_add.
    now replace (q + - (l + q - 52))%Z with (52 - l)%Z by ring. }
  rewrite (nearestEven_compat _ _ Hs), nearestEven_Z.
  rewrite Hx, inject_Z_mult, pow2_Z by lia.
  rewrite <- Qmult_assoc, <- pow2_add.
  now replace (52 - l + (l + q - 52))%Z with q by ring.
Qed.

Lemma double_idempotent (x : Q) :
  0 <= x -> Js.double (Js.double x) == Js.double x.
Proof.
  intros H0. destruct (Qlt_le_dec 0 x) as [Hx|Hx].
  - destruct (nearest_significand x Hx) as [Hlo Hhi].
    pose proof (double_pos_eq x Hx) as E.
    set (m := Js.nearestEven _) in *. set (q := (Js.ilog2 x - 52)%Z) in *.
    destruct (Z.eq_dec m (2 ^ 53)) as [Em|Em].
    + apply (double_exact _ (2 ^ 52) (q + 1)); [lia|].
      rewrite E, Em, pow2_add, !pow2_Z by lia.
      change (2 ^ 53) with (2 ^ (52 + 1)). rewrite (pow2_add 52 1). ring.
    + apply (double_exact _ m q); [lia | exact E].
  - assert (E : x == 0) by lra.
    assert (Ex : Js.double x = 0) by (unfold Js.double; now rewrite E).
    now rewrite Ex.
Qed.

Lemma double_compat (x y : Q) : x == y -> Js.double x == Js.double y.
Proof.
  intros H. destruct (Q_dec 0 x) as [[Hx|Hx]|Hx].
  - assert (Hy : 0 < y) by lra.
    rewrite (double_pos_eq x Hx), (double_pos_eq y Hy).
    assert (He : Js.ilog2 x = Js.ilog2 y).
    { apply ilog2_unique; rewrite H; now apply ilog2_spec. }
    rewrite He. apply Qmult_comp; [|reflexivity].
    rewrite (nearestEven_compat (x / 2 ^ (Js.ilog2 y - 52))
               (y / 2 ^ (Js.ilog2 y - 52))); [reflexivity|].
    now rewrite H.
  - assert (Hy : y < 0) by lra. unfold Js.double.
    destruct (Qcompare_spec x 0) as [E|E|E]; try (exfalso; lra).
    destruct (Qcompare_spec y 0) as [E'|E'|E']; try (exfalso; lra).
    cbv zeta. rewrite !Qred_correct.
    assert (He : Js.ilog2 (- x) = Js.ilog2 (- y)).
    { apply ilog2_unique; rewrite H; apply ilog2_spec; lra. }
    rewrite He. apply Qopp_comp. apply Qmult_comp; [|reflexivity].
    rewrite (nearestEven_compat (- x / 2 ^ (Js.ilog2 (- y) - 52))
               (- y / 2 ^ (Js.ilog2 (- y) - 52))); [reflexivity|].
    now rewrite H.
  - unfold Js.double. rewrite <- H, <- Hx. reflexivity.
Qed.

End Double.

#[global] Instance double_proper : Proper (Qeq ==> Qeq) Js.double.
Proof. intros x y H. now apply double_compat. Qed.

(** ** The progress value *)

Section Progress.

Local Open Scope Q_scope.

Lemma ltb_lt (x y : Q) : Js.ltb x y = true <-> x < y.
Proof.
  unfold Js.ltb. rewrite negb_true_iff. split.
  - intros H. apply Qnot_le_lt. intros Hle.
    apply Qle_bool_iff in Hle. congruence.
  - intros H. destruct (Qle_bool y x) eqn:E; [|reflexivity].
    apply Qle_bool_iff in E. exfalso. exact (Qlt_not_le _ _ H E).
Qed.

Lemma ltb_ge (x y : Q) : Js.ltb x y = false <-> y <= x.
Proof.
  unfold Js.ltb. rewrite negb_false_iff. apply Qle_bool_iff.
Qed.

(** The timer never moves the value past 90, and never moves a value that
    is already there or beyond. *)
Lemma progressTick_cases (random : Q) (s : AppState) :
  (progress s < 90
   /\ progress (progressTick random s)
      = Qmin (Js.add (progress s) (Js.mul random 15)) 90)
  \/ (90 <= progress s /\ progressTick random s = s).
Proof.
  unfold progressTick. destruct (Js.ltb (progress s) 90) eqn:E.
  - left. apply ltb_lt in E. split; [exact E | reflexivity].
  - right. apply ltb_ge in E. split; [exact E | reflexivity].
Qed.

Lemma progressTick_capped (random : Q) (s : AppState) :
  progress s <= 90 -> progress (progressTick random s) <= 90.
Proof.
  intros H. destruct (progressTick_cases random s) as [[_ ->]|[_ ->]].
  - apply Q.le_min_r.
  - exact H.
Qed.

Lemma increment_nonneg (random : Q) :
  0 <= random -> 0 <= Js.mul random 15.
Proof.
  intros Hr. apply double_nonneg.
  apply Qmult_le_0_compat; [exact Hr | discriminate].
Qed.

Lemma add_increases (prev inc : Q) :
  0 <= prev -> isDouble prev -> 0 <= inc -> prev <= Js.add prev inc.
Proof.
  intros Hp Hd Hi. unfold isDouble in Hd. rewrite <- Hd at 1.
  apply double_monotone; [exact Hp | lra].
Qed.

Lemma progressTick_increases (random : Q) (s : AppState) :
  0 <= random -> 0 <= progress s -> isDouble (progress s) ->
  progress s <= progress (progressTick random s).
Proof.
  intros Hr Hp Hd.
  destruct (progressTick_cases random s) as [[Hlt ->]|[_ ->]].
  - apply Q.min_glb.
    + apply add_increases; auto using increment_nonneg.
    + now apply Qlt_le_weak.
  - apply Qle_refl.
Qed.

Lemma progressTick_nonneg (random : Q) (s : AppState) :
  0 <= random -> 0 <= progress s -> 0 <= progress (progressTick random s).
Proof.
  intros Hr Hp.
  destruct (progressTick_cases random s) as [[Hlt ->]|[_ ->]]; [|exact Hp].
  apply Q.min_glb; [|discriminate].
  apply double_nonneg. pose proof (increment_nonneg random Hr). lra.
Qed.

Lemma isDouble_90 : isDouble 90.
Proof. reflexivity. Qed.

Lemma progressTick_double (random : Q) (s : AppState) :
  0 <= random -> 0 <= progress s -> isDouble (progress s) ->
  isDouble (progress (progressTick random s)).
Proof.
  intros Hr Hp Hd.
  destruct (progressTick_cases random s) as [[Hlt ->]|[_ ->]]; [|exact Hd].
  destruct (Q.min_dec (Js.add (progress s) (Js.mul random 15)) 90) as [E|E];
    unfold isDouble; rewrite E.
  - apply double_idempotent.
    pose proof (increment_nonneg random Hr). lra.
  - reflexivity.
Qed.

Lemma progressTick_next (random : Q) (s : AppState) :
  progress (progressTick random s) = nextProgress (progress s) random.
Proof.
  unfold progressTick, nextProgress.
  now destruct (Js.ltb (progress s) 90).
Qed.

Lemma progressTick_frame (random : Q) (s : AppState) :
  url (progressTick random s) = url s
  /\ transcript (progressTick random s) = transcript s
  /\ isLoading (progressTick random s) = isLoading s
  /\ error (progressTick random s) = error s
  /\ summaryType (progressTick random s) = summaryType s
  /\ videoInfo (progressTick random s) = videoInfo s.
Proof.
  unfold progressTick. destruct (Js.ltb (progress s) 90);
    repeat split; reflexivity.
Qed.

End Progress.

(** ** Invariants of the reachable worlds *)

Lemma first_render_is_rejected (w : World) :
  handleConvert initialState w = with_ui (setError invalidUrlMessage) w.
Proof. now apply handleConvert_rejected. Qed.

(** A suspended call keeps the button disabled: there is never a second
    call of [handleConvert] past the guard while one is suspended. *)
Lemma suspended_call_is_loading (w : World) :
  Reachable w -> call w <> NoCall -> isLoading (ui w) = true.
Proof.
  induction 1 as [|e w Hw IH Hwf]; [intros H; now elim H|].
  destruct e; cbn [step]; try exact IH.
  - destruct (isLoading (ui w)) eqn:El; [intros _; exact El|].
    destruct (acceptsUrl (url (ui w))) eqn:Ea.
    + now rewrite handleConvert_accepted.
    + rewrite handleConvert_rejected by assumption. cbn.
      rewrite El. exact IH.
  - unfold handleKeyDown. destruct (_ || _); [|exact IH]. exact IH.
  - destruct (pasteTimers w); [exact IH|].
    rewrite first_render_is_rejected. exact IH.
  - destruct (intervals w); [exact IH|]. cbn.
    intros H. destruct (progressTick_frame random (ui w)) as (_&_&->&_).
    now apply IH.
  - case_eq (call w); intros; try now apply IH.
    now elim H0.
  - case_eq (call w); intros; try now apply IH.
    apply IH. congruence.
  - case_eq (call w); intros; try now apply IH.
    revert H0. unfold afterBody.
    destruct (bodyOutcome response); intros H0; now elim H0.
  - destruct (clearTimers w); exact IH.
Qed.

Lemma reachable_run (events : list Event) (w : World) :
  Reachable w -> Forall wellFormed events -> Reachable (run events w).
Proof.
  intros Hw Hev. revert w Hw.
  induction Hev as [|e events He _ IH]; intros w Hw; [exact Hw|].
  apply IH. now apply reach_step.
Qed.

(** ** Progress while the request is in flight *)

Lemma in_flight_below_cap (w : World) :
  Reachable w -> call w = AwaitFetch -> (progress (ui w) <= 90)%Q.
Proof.
  induction 1 as [|e w Hw IH Hwf]; [discriminate|].
  destruct e; cbn [step]; try exact IH.
  - destruct (isLoading (ui w)); [exact IH|].
    destruct (acceptsUrl (url (ui w))) eqn:Ea.
    + rewrite handleConvert_accepted by assumption. intros _. discriminate.
    + rewrite handleConvert_rejected by assumption. exact IH.
  - unfold handleKeyDown. destruct (_ || _); exact IH.
  - destruct (pasteTimers w); [exact IH|].
    rewrite first_render_is_rejected. exact IH.
  - destruct (intervals w); [exact IH|]. cbn. intros Hc.
    apply progressTick_capped. now apply IH.
  - case_eq (call w); intros; try now apply IH. discriminate.
  - case_eq (call w); intros; try now apply IH. discriminate.
  - case_eq (call w); intros; try now apply IH.
    revert H0. unfold afterBody. destruct (bodyOutcome response); discriminate.
  - destruct (clearTimers w); [exact IH|]. intros _. discriminate.
Qed.

(** Only two transitions take the value above 90: the arrival of the
    response, to 95, and the end of a successful call, to 100. *)
Lemma above_cap_origin (e : Event) (w : World) :
  (90 < progress (ui (step e w)))%Q ->
  ~ (progress (ui (step e w)) == progress (ui w))%Q ->
  (exists r, e = FetchResolved r /\ call w = AwaitFetch
             /\ progress (ui (step e w)) = 95%Q)
  \/ (exists r data, e = BodyRead /\ call w = AwaitBody r
                     /\ bodyOutcome r = inr data
                     /\ progress (ui (step e w)) = 100%Q).
Proof.
  assert (Hsame : forall w', progress (ui w') = progress (ui w) ->
            ~ (progress (ui w') == progress (ui w))%Q -> False).
  { intros w' -> H. apply H. reflexivity. }
  destruct e; cbn [step]; intros Hgt Hne;
    try (exfalso; apply (Hsame _ eq_refl Hne)).
  - exfalso. revert Hgt Hne. destruct (isLoading (ui w)).
    + intros _. apply Hsame. reflexivity.
    + destruct (acceptsUrl (url (ui w))) eqn:Ea.
      * rewrite handleConvert_accepted by assumption. cbn. discriminate.
      * rewrite handleConvert_rejected by assumption. intros _.
        apply Hsame. reflexivity.
  - exfalso. revert Hne. unfold handleKeyDown.
    destruct (_ || _); apply Hsame; reflexivity.
  - exfalso. revert Hne. destruct (pasteTimers w).
    + apply Hsame; reflexivity.
    + rewrite first_render_is_rejected. apply Hsame; reflexivity.
  - exfalso. revert Hgt Hne. destruct (intervals w).
    + intros _. apply Hsame; reflexivity.
    + cbn. destruct (progressTick_cases random (ui w)) as [[_ ->]|[_ ->]].
      * intros Hgt _. apply (Qlt_not_le _ _ Hgt). apply Q.le_min_r.
      * intros _ Hne. apply Hne. reflexivity.
  - exfalso. revert Hgt Hne. destruct (call w).
    + intros _. apply Hsame; reflexivity.
    + cbn. discriminate.
    + intros _. apply Hsame; reflexivity.
  - revert Hgt Hne. destruct (call w) eqn:Ec.
    + intros _ Hne. exfalso. apply (Hsame _ eq_refl Hne).
    + intros _ _. left. exists r. repeat split.
    + intros _ Hne. exfalso. apply (Hsame _ eq_refl Hne).
  - revert Hgt Hne. destruct (call w) eqn:Ec.
    + intros _ Hne. exfalso. apply (Hsame _ eq_refl Hne).
    + intros _ Hne. exfalso. apply (Hsame _ eq_refl Hne).
    + unfold afterBody. destruct (bodyOutcome response) eqn:Eo.
      * cbn. discriminate.
      * intros _ _. right. exists response, p. repeat split. exact Eo.
  - exfalso. revert Hgt Hne. destruct (clearTimers w).
    + intros _. apply Hsame; reflexivity.
    + cbn. discriminate.
Qed.

(** C10. In every reachable world in which the request is in flight (the
    call is suspended at [await fetch]) the progress value is at most 90.
    A transition that takes the value above 90 is either the arrival of the
    response, which sets 95, or the last stretch of a call whose response
    was a success, which sets 100. *)
Theorem progress_capped_until_response (w : World) :
  Reachable w ->
  (call w = AwaitFetch -> (progress (ui w) <= 90)%Q)
  /\ forall e : Event,
       (90 < progress (ui (step e w)))%Q ->
       ~ (progress (ui (step e w)) == progress (ui w))%Q ->
       (exists r, e = FetchResolved r /\ call w = AwaitFetch
                  /\ progress (ui (step e w)) = 95%Q)
       \/ (exists r data, e = BodyRead /\ call w = AwaitBody r
                          /\ bodyOutcome r = inr data
                          /\ progress (ui (step e w)) = 100%Q).
Proof.
  intros Hw. split.
  - now apply in_flight_below_cap.
  - intros e. apply above_cap_origin.
Qed.

Lemma progress_capped_until_response_witness :
  let w := run [TypeUrl "https://youtu.be/abc123"; ClickConvert; Tick (1 # 2)]
               initialWorld in
  call w = AwaitFetch /\ (progress (ui w) <= 90)%Q.
Proof.
  intros w.
  assert (Hev : Forall wellFormed
            [TypeUrl "https://youtu.be/abc123"; ClickConvert; Tick (1 # 2)]).
  { repeat constructor; discriminate. }
  destruct (progress_capped_until_response w
              (reachable_run _ _ reach_init Hev)) as [Hcap _].
  split; [reflexivity | exact (Hcap eq_refl)].
Defined.

(** ** The simulated progress *)

Section Simulation.

Local Open Scope Q_scope.

Lemma ticks_progress (draws : list Q) (s : AppState) :
  progress (ticks draws s) = fold_left nextProgress draws (progress s).
Proof.
  revert s. induction draws as [|r draws IH]; intros s; [reflexivity|].
  cbn [ticks fold_left]. fold (ticks draws (progressTick r s)).
  now rewrite IH, progressTick_next.
Qed.

(** While timers are active, a run of ticks only acts on the component
    state. *)
Lemma run_ticks (draws : list Q) (w : World) :
  intervals w <> 0%nat ->
  run (map Tick draws) w = with_ui (ticks draws) w.
Proof.
  revert w. induction draws as [|r draws IH]; intros w Hi.
  - now destruct w.
  - cbn [map run fold_left step]. destruct (intervals w) eqn:Ei; [easy|].
    fold (run (map Tick draws) (with_ui (progressTick r) w)).
    rewrite IH by (cbn; now rewrite Ei). unfold with_ui. cbn.
    now rewrite Ei.
Qed.

Lemma ticks_isLoading (draws : list Q) (s : AppState) :
  isLoading (ticks draws s) = isLoading s.
Proof.
  revert s. induction draws as [|r draws IH]; intros s; [reflexivity|].
  cbn [ticks fold_left]. fold (ticks draws (progressTick r s)).
  rewrite IH. now destruct (progressTick_frame r s) as (_&_&->&_).
Qed.

Lemma round_compat (x y : Q) : x == y -> Js.round x = Js.round y.
Proof. intros H. unfold Js.round. now rewrite H. Qed.

Lemma shownPercent_loading (s : AppState) :
  isLoading s = true ->
  shownPercent (render s) = Some (Js.round (progress s)).
Proof. intros H. unfold shownPercent, render. cbn. now rewrite H. Qed.




Lemma click_then_ticks (draws : list Q) (w : World) :
  isLoading (ui w) = false ->
  acceptsUrl (url (ui w)) = true ->
  let w' := run (ClickConvert :: map Tick draws) w in
  progress (ui w') = simulate draws
  /\ isLoading (ui w') = true
  /\ call w' = AwaitFetch.
Proof.
  intros Hl Ha w'. subst w'.
  change (run (ClickConvert :: map Tick draws) w)
    with (run (map Tick draws) (step ClickConvert w)).
  cbn [step]. rewrite Hl, handleConvert_accepted by exact Ha.
  rewrite run_ticks by (cbn; discriminate).
  cbn [with_ui ui call]. rewrite ticks_progress, ticks_isLoading.
  repeat split.
Qed.

End Simulation.




(** ** The end of a call *)

Lemma httpErrorMessage_truthy (r : Response) :
  Js.truthy (httpErrorMessage r) = true.
Proof. reflexivity. Qed.

Lemma truthy_iff (s : string) : Js.truthy s = true <-> s <> "".
Proof. destruct s; simpl; split; congruence. Qed.

Lemma or_else_default_nonempty (message : string) :
  Js.or_else message defaultErrorMessage <> "".
Proof.
  unfold Js.or_else. destruct message; cbn; discriminate.
Qed.

Lemma bodyOutcome_success (r : Response) (data : Payload) :
  ok r = true -> json r = ParsedOk data ->
  data_error data = None \/ data_error data = Some "" ->
  bodyOutcome r = inr data.
Proof.
  intros Hok Hj He. unfold bodyOutcome. rewrite Hok, Hj. cbn.
  destruct He as [->| ->]; reflexivity.
Qed.

Lemma afterBody_failure (r : Response) (message : string) (w : World) :
  bodyOutcome r = inl message ->
  afterBody r w =
  mkWorld (ui w |> catchBlock message |> finallyBlock) NoCall
    (intervals w) (clearTimers w) (pasteTimers w) (sent w).
Proof. intros H. unfold afterBody. now rewrite H. Qed.

Lemma afterBody_success (r : Response) (data : Payload) (w : World) :
  bodyOutcome r = inr data ->
  afterBody r w =
  mkWorld (ui w |> consume data |> finallyBlock) NoCall
    (intervals w) (S (clearTimers w)) (pasteTimers w) (sent w).
Proof. intros H. unfold afterBody. now rewrite H. Qed.

(** C1, as stated, fails: when the call ends in an error the progress does
    not stay at its last value, 95; the [catch] block sets it to 0.  Shown
    on a response with status 500 and on an ok response with an [error]
    field. *)
Lemma failure_resets_progress :
  let before r :=
    run [TypeUrl "https://youtu.be/abc123"; ClickConvert; Tick (1 # 2);
         FetchResolved r] initialWorld in
  let after r := step BodyRead (before r) in
  (progress (ui (before serverError)) = 95%Q
   /\ error (ui (after serverError)) = "HTTP error! Status: 500"
   /\ call (after serverError) = NoCall
   /\ progress (ui (after serverError)) = 0%Q
   /\ ~ (progress (ui (after serverError))
         == progress (ui (before serverError)))%Q)
  /\ (progress (ui (before errorField)) = 95%Q
      /\ error (ui (after errorField)) = "Video unavailable"
      /\ call (after errorField) = NoCall
      /\ progress (ui (after errorField)) = 0%Q
      /\ ~ (progress (ui (after errorField))
            == progress (ui (before errorField)))%Q).
Proof.
  cbv zeta. repeat split; try (vm_compute; reflexivity);
    vm_compute; discriminate.
Qed.

(** C1, amended. When the call ends in an error, because the response has
    a failure status or because its body carries a non-empty [error] field,
    the page shows one error message, the loading flag is cleared, the
    transcript is left as it was, and the progress is reset to 0 with an
    empty progress message.  The message is the field, respectively the
    status line "HTTP error! Status: n"; if reading the body of the failed
    response itself fails, it is the message of that read error, or the
    default text when that message is empty. *)
Theorem failed_call_shows_error_and_resets
    (w : World) (r : Response) (message : string) :
  call w = AwaitBody r ->
  (ok r = false
   /\ ((exists content, text_read r = TextOk content)
        /\ message = httpErrorMessage r
       \/ exists thrown, text_read r = TextError thrown
                         /\ message = Js.or_else thrown defaultErrorMessage))
  \/ (ok r = true
      /\ exists data, json r = ParsedOk data
                      /\ data_error data = Some message /\ message <> "") ->
  let w' := step BodyRead w in
  error (ui w') = message
  /\ shownAlert (render (ui w')) = Some message
  /\ isLoading (ui w') = false
  /\ call w' = NoCall
  /\ transcript (ui w') = transcript (ui w)
  /\ progress (ui w') = 0%Q
  /\ progressMessage (ui w') = "".
Proof.
  intros Hc Hr w'. subst w'. cbn [step]. rewrite Hc.
  assert (Ho : exists thrown,
            bodyOutcome r = inl thrown
            /\ Js.or_else thrown defaultErrorMessage = message).
  { unfold bodyOutcome.
    destruct Hr as [[Hok [[[c Ht] ->]|[m [Ht ->]]]]|[Hok [data [Hj [He Hm]]]]];
      rewrite Hok; cbn.
    - rewrite Ht. eexists. split; reflexivity.
    - rewrite Ht. eexists. split; reflexivity.
    - apply truthy_iff in Hm. rewrite Hj, He, Hm. exists message.
      split; [reflexivity|]. unfold Js.or_else. now rewrite Hm. }
  destruct Ho as [thrown [Ho Hm]]. rewrite (afterBody_failure _ _ _ Ho).
  assert (Ht : Js.truthy message = true).
  { apply truthy_iff. rewrite <- Hm. apply or_else_default_nonempty. }
  unfold shownAlert, render, catchBlock, finallyBlock.
  cbn. rewrite Hm, Ht. repeat split; reflexivity.
Qed.

Lemma failed_call_shows_error_and_resets_witness :
  let w := run [TypeUrl "https://youtu.be/abc123"; ClickConvert;
                FetchResolved serverError] initialWorld in
  error (ui (step BodyRead w)) = "HTTP error! Status: 500"
  /\ shownAlert (render (ui (step BodyRead w)))
     = Some "HTTP error! Status: 500"
  /\ isLoading (ui (step BodyRead w)) = false
  /\ call (step BodyRead w) = NoCall
  /\ transcript (ui (step BodyRead w)) = transcript (ui w)
  /\ progress (ui (step BodyRead w)) = 0%Q
  /\ progressMessage (ui (step BodyRead w)) = "".
Proof.
  intros w.
  exact (failed_call_shows_error_and_resets w serverError
           "HTTP error! Status: 500" eq_refl
           (or_introl
              (conj eq_refl
                 (or_introl
                    (conj (ex_intro _ "Internal Server Error" eq_refl)
                       eq_refl))))).
Defined.

(** C8, as stated, fails: an ok response without an error whose [text] is
    empty is a success, and its [video_info] is stored, but the page shows
    neither a summary nor the video information: the card is part of the
    summary block, which is shown only for a non-empty transcript. *)
Lemma empty_text_shows_no_video_card :
  let w := run [TypeUrl "https://youtu.be/abc123"; ClickConvert;
                FetchResolved emptyTextSuccess] initialWorld in
  let w' := step BodyRead w in
  call w' = NoCall
  /\ error (ui w') = ""
  /\ progress (ui w') = 100%Q
  /\ videoInfo (ui w')
     = Some (mkVideoInfo (Js.VStr "Talk") (Js.VStr "Speaker")
               (Js.VStr "12:30") (Js.VNum 1024) (Js.VStr "2024-01-01"))
  /\ shownSummary (render (ui w')) = None
  /\ shownSummary (render (ui w'))
     <> Some (mkSummary
               (Some (mkCard (Js.VStr "Talk") (Js.VStr "Speaker")
                        (Js.VStr "12:30") (Js.VNum 1024)
                        (Js.VStr "2024-01-01")))
               false "").
Proof.
  cbv zeta. repeat split; try (vm_compute; reflexivity).
  vm_compute. discriminate.
Qed.

(** C8, amended. When the call ends in success (an ok response whose body
    parses and whose [error] is absent or empty), the component stores the
    body's [text] and [video_info].  If [text] is not empty the page then
    shows it as the summary and, when [video_info] is present, its [title],
    [uploader], [duration], [view_count] and [upload_date] in the rows
    Title, Creator, Duration, Views and Published; if [text] is empty it
    shows neither.  No error is shown.  The [highlights] and [timestamps]
    of the body may be present or absent and are not read. *)
Theorem success_payload_is_displayed
    (w : World) (r : Response) (data : Payload) :
  call w = AwaitBody r ->
  ok r = true ->
  json r = ParsedOk data ->
  data_error data = None \/ data_error data = Some "" ->
  let w' := step BodyRead w in
  transcript (ui w') = data_text data
  /\ videoInfo (ui w') = data_video_info data
  /\ shownSummary (render (ui w'))
     = (if Js.truthy (data_text data)
        then Some (mkSummary
                     (option_map
                        (fun v => mkCard (title v) (uploader v) (duration v)
                                    (view_count v) (upload_date v))
                        (data_video_info data))
                     (copySuccess (ui w))
                     (data_text data))
        else None)
  /\ shownAlert (render (ui w')) = None
  /\ call w' = NoCall.
Proof.
  intros Hc Hok Hj He w'. subst w'. cbn [step]. rewrite Hc.
  rewrite (afterBody_success _ _ _ (bodyOutcome_success r data Hok Hj He)).
  unfold shownSummary, shownAlert, render, consume, finallyBlock.
  cbn. repeat split; reflexivity.
Qed.

Lemma success_payload_is_displayed_witness :
  let w := run [TypeUrl "https://youtu.be/abc123"; ClickConvert;
                FetchResolved sampleSuccess] initialWorld in
  shownSummary (render (ui (step BodyRead w)))
  = Some (mkSummary
            (Some (mkCard (Js.VStr "Talk") (Js.VStr "Speaker")
                     (Js.VStr "12:30") (Js.VNum 1024) (Js.VStr "2024-01-01")))
            false "A short summary.").
Proof.
  intros w.
  exact (proj1 (proj2 (proj2
           (success_payload_is_displayed w sampleSuccess samplePayload
              eq_refl eq_refl eq_refl (or_introl eq_refl))))).
Defined.

(** ** The request *)

Lemma optionValue_listed (o : SummaryOption) : In (optionValue o) summaryValues.
Proof. destruct o; simpl; auto. Qed.

(** The summary type only ever holds the value of one of the four options. *)
Lemma summaryType_is_an_option (w : World) :
  Reachable w -> In (summaryType (ui w)) summaryValues.
Proof.
  induction 1 as [|e w Hw IH Hwf]; [simpl; auto|].
  destruct e; cbn [step]; try exact IH.
  - apply optionValue_listed.
  - destruct (isLoading (ui w)); [exact IH|].
    destruct (acceptsUrl (url (ui w))) eqn:Ea.
    + now rewrite handleConvert_accepted.
    + now rewrite handleConvert_rejected.
  - unfold handleKeyDown. destruct (_ || _); exact IH.
  - destruct (pasteTimers w); [exact IH|].
    now rewrite first_render_is_rejected.
  - destruct (intervals w); [exact IH|]. cbn.
    now destruct (progressTick_frame random (ui w)) as (_&_&_&_&->&_).
  - destruct (call w); exact IH.
  - destruct (call w); exact IH.
  - destruct (call w); try exact IH. unfold afterBody.
    destruct (bodyOutcome response); exact IH.
  - destruct (clearTimers w); exact IH.
Qed.

Lemma sent_requests_have_five_fields (w : World) :
  Reachable w -> Forall fiveFields (sent w).
Proof.
  induction 1 as [|e w Hw IH Hwf]; [constructor|].
  pose proof (summaryType_is_an_option w Hw) as Ht.
  destruct e; cbn [step]; try exact IH.
  - destruct (isLoading (ui w)); [exact IH|].
    destruct (acceptsUrl (url (ui w))) eqn:Ea.
    + rewrite handleConvert_accepted by assumption. cbn [sent].
      apply Forall_app. split; [exact IH|]. constructor; [|constructor].
      exists (url (ui w)), (summaryType (ui w)). split; [reflexivity|exact Ht].
    + now rewrite handleConvert_rejected.
  - unfold handleKeyDown. destruct (_ || _); exact IH.
  - destruct (pasteTimers w); [exact IH|].
    now rewrite first_render_is_rejected.
  - destruct (intervals w); exact IH.
  - destruct (call w); exact IH.
  - destruct (call w); exact IH.
  - destruct (call w); try exact IH. unfold afterBody.
    destruct (bodyOutcome response); exact IH.
  - destruct (clearTimers w); exact IH.
Qed.

(** C7, as stated, fails: the body of a request has five fields, not four;
    [include_chapters] is sent as well. *)
Lemma request_has_a_fifth_field :
  let w := run [TypeUrl "https://youtu.be/abc123"; SelectSummary Brief;
                ClickConvert] initialWorld in
  map (fun r => map fst (body r)) (sent w)
  = [["url"; "summary_type"; "include_timestamps"; "include_chapters";
      "include_highlights"]]
  /\ map (fun r => map fst (body r)) (sent w)
     <> [["url"; "summary_type"; "include_timestamps"; "include_highlights"]]
  /\ map (fun r => field "include_chapters" (body r)) (sent w)
     = [Some (JBool false)].
Proof. cbv zeta. split; [reflexivity | split; [discriminate | reflexivity]]. Qed.

(** C7, amended. Every request that the component hands to [fetch] has a
    body of exactly the five fields [url] (a string), [summary_type] (one of
    "comprehensive", "brief", "bullets", "academic"), [include_timestamps]
    (true), [include_chapters] (false) and [include_highlights] (true). *)
Theorem every_request_has_five_fields (w : World) (r : Request) :
  Reachable w ->
  In r (sent w) ->
  exists u t,
    body r = [ ("url", JString u);
               ("summary_type", JString t);
               ("include_timestamps", JBool true);
               ("include_chapters", JBool false);
               ("include_highlights", JBool true) ]
    /\ (t = "comprehensive" \/ t = "brief" \/ t = "bullets" \/ t = "academic").
Proof.
  intros Hw Hr.
  pose proof (sent_requests_have_five_fields w Hw) as Hall.
  rewrite Forall_forall in Hall.
  destruct (Hall r Hr) as [u [t [Hb Ht]]].
  exists u, t. split; [exact Hb|].
  simpl in Ht. intuition auto.
Qed.

Lemma every_request_has_five_fields_witness :
  exists u t,
    body (convertRequest
            (setSummaryType "brief"
               (setUrl "https://youtu.be/abc123" initialState)))
    = [ ("url", JString u);
        ("summary_type", JString t);
        ("include_timestamps", JBool true);
        ("include_chapters", JBool false);
        ("include_highlights", JBool true) ]
    /\ (t = "comprehensive" \/ t = "brief" \/ t = "bullets" \/ t = "academic").
Proof.
  assert (Hev : Forall wellFormed
            [TypeUrl "https://youtu.be/abc123"; SelectSummary Brief;
             ClickConvert]).
  { repeat constructor. }
  exact (every_request_has_five_fields
           (run [TypeUrl "https://youtu.be/abc123"; SelectSummary Brief;
                 ClickConvert] initialWorld)
           _ (reachable_run _ _ reach_init Hev) (or_introl eq_refl)).
Defined.

(** ** The progress values of one call *)

Lemma continues_frame (w w' : World) :
  Running w ->
  call w' = call w ->
  clearTimers w' = clearTimers w ->
  isLoading (ui w') = isLoading (ui w) ->
  progress (ui w') = progress (ui w) ->
  Continues w w'.
Proof.
  intros [Hc Hl Ht Hn Hd Hb Hcap] Ec Et El Ep. split.
  - intros _. split.
    + constructor; rewrite ?Ec, ?Et, ?El, ?Ep; assumption.
    + unfold progressOf. rewrite Ep. apply Qle_refl.
  - rewrite Ec. intros H. now elim Hc.
Qed.

Lemma running_step (e : Event) (w : World) :
  Running w -> wellFormed e -> Continues w (step e w).
Proof.
  intros Hrun Hwf. pose proof Hrun as [Hc Hl Ht Hn Hd Hb Hcap].
  destruct e; cbn [step];
    try (apply continues_frame; [assumption | reflexivity ..]).
  - rewrite Hl. now apply continues_frame.
  - unfold handleKeyDown. destruct (_ || _); now apply continues_frame.
  - destruct (pasteTimers w); [now apply continues_frame|].
    rewrite first_render_is_rejected. now apply continues_frame.
  - destruct (intervals w); [now apply continues_frame|].
    destruct Hwf as [Hr _].
    destruct (progressTick_frame random (ui w)) as (_&_&El&_).
    split; cbn [with_ui call ui]; [|intros H; now elim Hc].
    intros _. split; [|now apply progressTick_increases].
    constructor; cbn [with_ui call ui clearTimers]; try assumption.
    + now rewrite El.
    + now apply progressTick_nonneg.
    + now apply progressTick_double.
    + destruct (progressTick_cases random (ui w)) as [[_ ->]|[_ ->]];
        [|assumption].
      apply Qle_trans with 90%Q; [apply Q.le_min_r | discriminate].
    + intros H. apply progressTick_capped. now apply Hcap.
  - destruct (call w) eqn:Ec; try now apply continues_frame.
    split; cbn; [intros H; now elim H|]. intros _.
    unfold Js.or_else. split; [|reflexivity].
    destruct (Js.truthy message) eqn:Em; [|discriminate].
    intros ->. discriminate.
  - destruct (call w) eqn:Ec; try now apply continues_frame.
    split; cbn [with_ui call ui afterFetch setProgress
                  setProgressMessage progress isLoading clearTimers];
      [|discriminate].
    intros _. split.
    + constructor;
        cbn [with_ui call ui afterFetch setProgress
               setProgressMessage progress isLoading clearTimers];
        try assumption; try discriminate.
      vm_compute. reflexivity.
    + apply Qle_trans with 90%Q; [now apply Hcap | discriminate].
  - destruct (call w) eqn:Ec; try now apply continues_frame.
    unfold afterBody. destruct (bodyOutcome response) as [message|data].
    + split; cbn; [intros H; now elim H|]. intros _.
      unfold Js.or_else. split; [|reflexivity].
      destruct (Js.truthy message) eqn:Em; [|discriminate].
      intros ->. discriminate.
    + split; cbn; [intros H; now elim H|]. intros _. split.
      * intros _. apply Qle_trans with 95%Q; [exact Hb | discriminate].
      * intros H. now elim H.
  - rewrite Ht. now apply continues_frame.
Qed.

Lemma running_trace_sorted (events : list Event) (w : World) :
  Running w ->
  Forall wellFormed events ->
  Sorted Qle (map progressOf (w :: whileSuspended (trace events w))).
Proof.
  intros Hw Hev. revert w Hw.
  induction Hev as [|e events He _ IH]; intros w Hw; cbn [trace whileSuspended].
  - repeat constructor.
  - destruct (running_step e w Hw He) as [Hgo _].
    destruct (call (step e w)) eqn:Ec.
    + repeat constructor.
    + destruct Hgo as [Hw' Hle]; [discriminate|].
      cbn [map]. constructor; [now apply IH | now constructor].
    + destruct Hgo as [Hw' Hle]; [discriminate|].
      cbn [map]. constructor; [now apply IH | now constructor].
Qed.

Lemma running_trace_settles (events : list Event) (w : World) :
  Running w ->
  Forall wellFormed events ->
  forall before settled,
    untilSettled (trace events w) = before ++ [settled] ->
    call settled = NoCall ->
    (error (ui settled) = "" ->
     Sorted Qle (map progressOf (w :: untilSettled (trace events w))))
    /\ (error (ui settled) <> "" -> progressOf settled = 0%Q).
Proof.
  intros Hw Hev. revert w Hw.
  induction Hev as [|e events He _ IH];
    intros w Hw before settled; cbn [trace untilSettled].
  - intros H. now destruct before.
  - destruct (running_step e w Hw He) as [Hgo Hend].
    destruct (call (step e w)) eqn:Ec.
    + intros H Hs. destruct before as [|b before].
      * injection H as <-. destruct (Hend eq_refl) as [Hok Hfail].
        split; [|exact Hfail]. intros Herr. cbn [map].
        repeat constructor. now apply Hok.
      * destruct before; discriminate.
    + destruct Hgo as [Hw' Hle]; [discriminate|].
      intros H Hs. destruct before as [|b before].
      * injection H as <- _. congruence.
      * injection H as <- H.
        destruct (IH _ Hw' _ _ H Hs) as [Hok Hfail].
        split; [|exact Hfail]. intros Herr. cbn [map].
        constructor; [now apply Hok | now constructor].
    + destruct Hgo as [Hw' Hle]; [discriminate|].
      intros H Hs. destruct before as [|b before].
      * injection H as <- _. congruence.
      * injection H as <- H.
        destruct (IH _ Hw' _ _ H Hs) as [Hok Hfail].
        split; [|exact Hfail]. intros Herr. cbn [map].
        constructor; [now apply Hok | now constructor].
Qed.

Lemma click_starts_running (w : World) :
  isLoading (ui w) = false ->
  acceptsUrl (url (ui w)) = true ->
  clearTimers w = 0%nat ->
  Running (step ClickConvert w) /\ call (step ClickConvert w) = AwaitFetch.
Proof.
  intros Hl Ha Ht. cbn [step]. rewrite Hl, handleConvert_accepted by exact Ha.
  split; [|reflexivity].
  constructor; cbn; try assumption; try reflexivity; try discriminate.
Qed.

(** C3, as stated, fails: in a call that ends in an error the values seen
    from the click to the settled state are 0, 15/2, 95 and then 0. *)
Lemma failed_call_progress_drops :
  let w := step (TypeUrl "https://youtu.be/abc123") initialWorld in
  let events := [Tick (1 # 2); FetchResolved serverError; BodyRead] in
  map progressOf (untilSettled (trace (ClickConvert :: events) w))
  = [0; 15 # 2; 95; 0]%Q
  /\ ~ Sorted Qle
         (map progressOf (untilSettled (trace (ClickConvert :: events) w))).
Proof.
  cbv zeta. split; [reflexivity|].
  change (map progressOf _) with [0; 15 # 2; 95; 0]%Q.
  intros H.
  apply Sorted_inv in H. destruct H as [H _].
  apply Sorted_inv in H. destruct H as [H _].
  apply Sorted_inv in H. destruct H as [_ H].
  apply HdRel_inv in H. now apply H.
Qed.

(** A timeout left by an earlier, successful call clears the progress of
    the next one while it is in flight: the values of the second call are 0,
    15/2 and then 0 again.  The hypothesis on [clearTimers] below excludes
    this interleaving. *)
Remark stale_timeout_clears_running_call :
  let w := run [TypeUrl "https://youtu.be/abc123"; ClickConvert;
                FetchResolved sampleSuccess; BodyRead] initialWorld in
  let ws := trace [ClickConvert; Tick (1 # 2); ClearTimeout] w in
  clearTimers w = 1%nat
  /\ map call ws = [AwaitFetch; AwaitFetch; AwaitFetch]
  /\ map progressOf ws = [0; 15 # 2; 0]%Q.
Proof. cbv zeta. repeat split. Qed.

(** C3, amended. For a call started while no timeout of an earlier call is
    pending, whatever events follow the click: the progress values seen
    while the call is suspended are non-decreasing; if the call settles
    without an error, the values up to and including the settled state
    (which holds 100) are non-decreasing; if it settles with an error, the
    settled state holds 0. *)
Theorem progress_monotone_until_settled (w : World) (events : list Event) :
  isLoading (ui w) = false ->
  acceptsUrl (url (ui w)) = true ->
  clearTimers w = 0%nat ->
  Forall wellFormed events ->
  let ws := trace (ClickConvert :: events) w in
  Sorted Qle (map progressOf (whileSuspended ws))
  /\ forall before settled,
       untilSettled ws = before ++ [settled] ->
       call settled = NoCall ->
       (error (ui settled) = "" ->
        Sorted Qle (map progressOf (untilSettled ws)))
       /\ (error (ui settled) <> "" -> progressOf settled = 0%Q).
Proof.
  intros Hl Ha Ht Hev ws. subst ws.
  destruct (click_starts_running w Hl Ha Ht) as [Hrun Hcall].
  cbn [trace untilSettled whileSuspended].
  remember (step ClickConvert w) as started eqn:E. clear E.
  rewrite Hcall. split.
  - now apply running_trace_sorted.
  - intros before settled H Hs. destruct before as [|b before].
    + injection H as <- _. congruence.
    + injection H as <- H.
      now apply (running_trace_settles events _ Hrun Hev before settled).
Qed.

Lemma progress_monotone_until_settled_witness :
  let w := step (TypeUrl "https://youtu.be/abc123") initialWorld in
  let events := [Tick (1 # 2); Tick (9 # 10); FetchResolved sampleSuccess;
                 Tick (1 # 3); BodyRead] in
  Sorted Qle
    (map progressOf (untilSettled (trace (ClickConvert :: events) w))).
Proof.
  intros w events.
  assert (Hev : Forall wellFormed events).
  { repeat constructor; discriminate. }
  destruct (progress_monotone_until_settled w events
              eq_refl eq_refl eq_refl Hev) as [_ Hsettled].
  exact (proj1 (Hsettled
                  (removelast (untilSettled (trace (ClickConvert :: events) w)))
                  (run (ClickConvert :: events) w)
                  eq_refl eq_refl) eq_refl).
Defined.

(** * Further properties of the component *)

(** ** The loading flag *)

Lemma settled_call_is_not_loading (w : World) :
  Reachable w -> call w = NoCall -> isLoading (ui w) = false.
Proof.
  induction 1 as [|e w Hw IH Hwf]; [reflexivity|].
  destruct e; cbn [step]; try exact IH.
  - destruct (isLoading (ui w)) eqn:El;
      [intros Hc; rewrite El; now apply IH|].
    destruct (acceptsUrl (url (ui w))) eqn:Ea.
    + rewrite handleConvert_accepted by assumption. discriminate.
    + rewrite handleConvert_rejected by assumption. intros _. exact El.
  - unfold handleKeyDown. destruct (_ || _); exact IH.
  - destruct (pasteTimers w); [exact IH|].
    rewrite first_render_is_rejected. exact IH.
  - destruct (intervals w); [exact IH|]. cbn. intros Hc.
    destruct (progressTick_frame random (ui w)) as (_&_&->&_).
    now apply IH.
  - case_eq (call w); intros; now apply IH || reflexivity.
  - case_eq (call w); intros; now apply IH || discriminate.
  - case_eq (call w); intros; try now apply IH.
    unfold afterBody. destruct (bodyOutcome response); reflexivity.
  - destruct (clearTimers w); exact IH.
Qed.

(** X1. In every reachable state the loading flag is on exactly when a call
    of [handleConvert] is suspended: the button is disabled during the whole
    call, and every way out of the call (success, thrown error, rejected
    [fetch]) passes the [finally] block that enables it again. *)
Theorem loading_iff_call_suspended (w : World) :
  Reachable w ->
  (isLoading (ui w) = true <-> call w <> NoCall)
  /\ (button_disabled (render (ui w)) = true <-> call w <> NoCall).
Proof.
  intros Hw.
  assert (H : isLoading (ui w) = true <-> call w <> NoCall).
  { split.
    - intros Hl Hc. rewrite (settled_call_is_not_loading w Hw Hc) in Hl.
      discriminate.
    - now apply suspended_call_is_loading. }
  split; exact H.
Qed.

Lemma loading_iff_call_suspended_witness :
  let w := run [TypeUrl "https://youtu.be/abc123"; ClickConvert;
                FetchRejected "Failed to fetch"] initialWorld in
  isLoading (ui w) = true <-> call w <> NoCall.
Proof.
  intros w.
  assert (Hev : Forall wellFormed
            [TypeUrl "https://youtu.be/abc123"; ClickConvert;
             FetchRejected "Failed to fetch"]).
  { repeat constructor. }
  exact (proj1 (loading_iff_call_suspended w
                  (reachable_run _ _ reach_init Hev))).
Defined.

(** ** The range of the progress *)

Section Range.

Local Open Scope Q_scope.

Lemma progressTick_value (random : Q) (s : AppState) :
  0 <= random -> progressValue (progress s) ->
  progressValue (progress (progressTick random s)).
Proof.
  intros Hr Hp.
  destruct (progressTick_cases random s) as [[Hlt E]|[_ E]].
  - left. split.
    + destruct Hp as [[H0 _]|[Hp|Hp]].
      * now apply progressTick_nonneg.
      * rewrite Hp in Hlt. discriminate.
      * rewrite Hp in Hlt. discriminate.
    + rewrite E. apply Q.le_min_r.
  - now rewrite E.
Qed.

Lemma reachable_progress_value (w : World) :
  Reachable w -> progressValue (progress (ui w)).
Proof.
  assert (H0 : progressValue 0) by (left; split; discriminate).
  induction 1 as [|e w Hw IH Hwf]; [exact H0|].
  destruct e; cbn [step]; try exact IH.
  - destruct (isLoading (ui w)); [exact IH|].
    destruct (acceptsUrl (url (ui w))) eqn:Ea.
    + now rewrite handleConvert_accepted.
    + now rewrite handleConvert_rejected.
  - unfold handleKeyDown. destruct (_ || _); exact IH.
  - destruct (pasteTimers w); [exact IH|].
    now rewrite first_render_is_rejected.
  - destruct (intervals w); [exact IH|]. cbn.
    apply progressTick_value; [apply Hwf | exact IH].
  - destruct (call w); try exact IH. exact H0.
  - destruct (call w); try exact IH. right. now left.
  - destruct (call w); try exact IH. unfold afterBody.
    destruct (bodyOutcome response); [exact H0 | right; now right].
  - destruct (clearTimers w); [exact IH | exact H0].
Qed.

Lemma round_monotone (x y : Q) : x <= y -> (Js.round x <= Js.round y)%Z.
Proof.
  intros H. unfold Js.round. apply Qfloor_resp_le.
  now apply Qplus_le_l.
Qed.

End Range.

(** X2. In every reachable state the progress lies between 0 and 100; above
    90 it is exactly 95 or exactly 100; and the percentage printed from it
    with [Math.round] lies between 0 and 100. *)
Theorem progress_stays_in_range (w : World) :
  Reachable w ->
  (0 <= progress (ui w) /\ progress (ui w) <= 100)%Q
  /\ ((90 < progress (ui w))%Q ->
      progress (ui w) = 95%Q \/ progress (ui w) = 100%Q)
  /\ (0 <= Js.round (progress (ui w)) <= 100)%Z.
Proof.
  intros Hw. pose proof (reachable_progress_value w Hw) as Hp.
  assert (Hr : (0 <= progress (ui w) /\ progress (ui w) <= 100)%Q).
  { destruct Hp as [[H0 H90]|[->| ->]].
    - split; [exact H0|]. apply Qle_trans with 90%Q; [exact H90|discriminate].
    - split; discriminate.
    - split; discriminate. }
  split; [exact Hr|]. split.
  - intros Hgt. destruct Hp as [[_ H90]|Hp]; [|exact Hp].
    exfalso. exact (Qlt_not_le _ _ Hgt H90).
  - destruct Hr as [H0 H100]. split.
    + change 0%Z with (Js.round 0). now apply round_monotone.
    + change 100%Z with (Js.round 100). now apply round_monotone.
Qed.

Lemma progress_stays_in_range_witness :
  let w := run [TypeUrl "https://youtu.be/abc123"; ClickConvert;
                Tick (9 # 10); Tick (1 # 2)] initialWorld in
  (0 <= Js.round (progress (ui w)) <= 100)%Z.
Proof.
  intros w.
  assert (Hev : Forall wellFormed
            [TypeUrl "https://youtu.be/abc123"; ClickConvert;
             Tick (9 # 10); Tick (1 # 2)]).
  { repeat constructor; discriminate. }
  exact (proj2 (proj2 (progress_stays_in_range w
                         (reachable_run _ _ reach_init Hev)))).
Defined.

(** ** One tick of the timer *)

(** X3. A tick of the progress timer, with [Math.random ()] in [0, 1) and
    a progress that is a non-negative double, never lowers the progress and
    raises it to at most the double nearest to the progress plus 15; it
    touches no state variable but the progress and the progress message. *)
Theorem tick_advances_by_at_most_15 (random : Q) (s : AppState) :
  (0 <= random)%Q -> (random < 1)%Q ->
  (0 <= progress s)%Q -> isDouble (progress s) ->
  let s' := progressTick random s in
  (progress s <= progress s')%Q
  /\ (progress s' <= Js.add (progress s) 15)%Q
  /\ url s' = url s
  /\ transcript s' = transcript s
  /\ isLoading s' = isLoading s
  /\ isSidebarOpen s' = isSidebarOpen s
  /\ error s' = error s
  /\ copySuccess s' = copySuccess s
  /\ summaryType s' = summaryType s
  /\ videoInfo s' = videoInfo s.
Proof.
  intros H0 H1 Hp Hd s'. subst s'.
  split; [now apply progressTick_increases|]. split.
  - destruct (progressTick_cases random s) as [[_ ->]|[_ ->]].
    + eapply Qle_trans; [apply Q.le_min_l|].
      apply double_monotone.
      * pose proof (increment_nonneg random H0). lra.
      * apply Qplus_le_r.
        assert (E : (Js.double 15 == 15)%Q) by (vm_compute; reflexivity).
        apply Qle_trans with (Js.double 15); [|now rewrite E].
        unfold Js.mul. apply double_monotone; [|lra].
        apply Qmult_le_0_compat; [exact H0 | discriminate].
    + apply add_increases; [exact Hp | exact Hd | discriminate].
  - unfold progressTick. destruct (Js.ltb (progress s) 90);
      repeat split; reflexivity.
Qed.

Lemma tick_advances_by_at_most_15_witness :
  let s := setProgress 80 initialState in
  (progress s <= progress (progressTick (9 # 10) s))%Q
  /\ (progress (progressTick (9 # 10) s) <= Js.add (progress s) 15)%Q.
Proof.
  intros s.
  assert (H0 : (0 <= 9 # 10)%Q) by discriminate.
  assert (H1 : (9 # 10 < 1)%Q) by reflexivity.
  assert (Hp : (0 <= progress s)%Q) by discriminate.
  assert (Hd : isDouble (progress s)) by (vm_compute; reflexivity).
  destruct (tick_advances_by_at_most_15 (9 # 10) s H0 H1 Hp Hd)
    as [Ha [Hb _]].
  split; [exact Ha | exact Hb].
Defined.

Section Bands.

Local Open Scope Q_scope.

Lemma ltb_compat (x y c : Q) : x == y -> Js.ltb x c = Js.ltb y c.
Proof. intros H. unfold Js.ltb. now rewrite H. Qed.

Lemma ltb_above (x c : Q) : c <= x -> Js.ltb x c = false.
Proof. intros H. now apply ltb_ge. Qed.

(** The cap at 90 lies in the last band: capping does not change the
    message. *)
Lemma tickMessage_capped (x : Q) : tickMessage (Qmin x 90) = tickMessage x.
Proof.
  destruct (Q.min_spec x 90) as [[Hlt E]|[Hge E]]; unfold tickMessage.
  - now rewrite !(ltb_compat _ _ _ E).
  - rewrite !(ltb_compat _ _ _ E).
    rewrite !(ltb_above x) by lra. reflexivity.
Qed.

End Bands.

(** X4. After a tick, either nothing has changed (the progress was at 90 or
    beyond) or the progress message is the one of the band in which the new,
    capped progress lies: below 15, 30, 45, 60, 75, or from 75 on. *)
Theorem tick_message_matches_progress (random : Q) (s : AppState) :
  progressTick random s = s
  \/ progressMessage (progressTick random s)
     = tickMessage (progress (progressTick random s)).
Proof.
  unfold progressTick. destruct (Js.ltb (progress s) 90); [right | now left].
  cbn. symmetry. apply tickMessage_capped.
Qed.

(** ** The first seconds of a call *)

Section FirstSeconds.

Local Open Scope Q_scope.

(** A double below 1 is at most the largest double below 1. *)
Lemma double_below_one (r : Q) :
  0 <= r -> r < 1 -> isDouble r -> r <= maxDraw.
Proof.
  intros H0 H1 Hd. destruct (Qlt_le_dec 0 r) as [Hr|Hr];
    [|apply Qle_trans with 0; [exact Hr | discriminate]].
  unfold isDouble in Hd. rewrite (double_pos_eq r Hr) in Hd.
  destruct (nearest_significand r Hr) as [Hlo Hhi].
  destruct (ilog2_spec r Hr) as [He Hup].
  set (m := Js.nearestEven _) in *. set (e := Js.ilog2 r) in *.
  assert (Hneg : (e < 0)%Z).
  { apply Qpower_lt_compat_l_inv with 2; [|reflexivity].
    eapply Qle_lt_trans; [exact He|]. exact H1. }
  destruct (Z.eq_dec e (- 1)) as [E1|E1].
  - rewrite E1 in Hd. change (-1 - 52)%Z with (- (53))%Z in Hd.
    assert (Hm : inject_Z m == r * 2 ^ 53).
    { rewrite <- Hd, <- Qmult_assoc, pow2_cancel. ring. }
    assert (Hlt : (m < 2 ^ 53)%Z).
    { rewrite Zlt_Qlt, Hm, pow2_Z by lia.
      rewrite <- (Qmult_1_l (2 ^ 53)) at 2. now apply scale_lt. }
    assert (Hle : inject_Z m <= inject_Z (2 ^ 53 - 1)).
    { rewrite <- Zle_Qle. lia. }
    rewrite <- Hd.
    apply Qle_trans with (inject_Z (2 ^ 53 - 1) * 2 ^ (- (53)));
      [now apply scale_le | discriminate].
  - apply Qlt_le_weak. eapply Qlt_le_trans; [exact Hup|].
    apply Qle_trans with (2 ^ (- 1)); [apply pow2_le; lia | discriminate].
Qed.

Lemma nextProgress_nonneg (prev random : Q) :
  0 <= prev -> 0 <= random -> 0 <= nextProgress prev random.
Proof.
  intros Hp Hr. unfold nextProgress.
  destruct (Js.ltb prev 90); [|exact Hp].
  apply Q.min_glb; [|discriminate].
  apply double_nonneg. pose proof (increment_nonneg random Hr). lra.
Qed.

(** A later start or a larger draw never gives a smaller progress. *)
Lemma nextProgress_monotone (prev prev' random random' : Q) :
  0 <= prev -> prev <= prev' -> 0 <= random -> random <= random' ->
  nextProgress prev random <= nextProgress prev' random'.
Proof.
  intros Hp Hpp Hr Hrr. unfold nextProgress.
  destruct (Js.ltb prev' 90) eqn:E'.
  - apply ltb_lt in E'.
    assert (E : Js.ltb prev 90 = true) by (apply ltb_lt; lra).
    rewrite E. apply Q.min_le_compat_r.
    pose proof (increment_nonneg random Hr) as Hi.
    assert (Hm : Js.mul random 15 <= Js.mul random' 15).
    { unfold Js.mul. apply double_monotone; [|lra].
      apply Qmult_le_0_compat; [exact Hr | discriminate]. }
    unfold Js.add. apply double_monotone; lra.
  - apply ltb_ge in E'. destruct (Js.ltb prev 90); [|exact Hpp].
    eapply Qle_trans; [apply Q.le_min_r | exact E'].
Qed.

Lemma fold_nextProgress_bound (draws : list Q) (prev prev' : Q) :
  0 <= prev -> prev <= prev' ->
  Forall (fun random => 0 <= random /\ random <= maxDraw) draws ->
  fold_left nextProgress draws prev
  <= fold_left nextProgress (repeat maxDraw (length draws)) prev'.
Proof.
  intros Hp Hpp Hd. revert prev prev' Hp Hpp.
  induction Hd as [|r draws [H0 H1] _ IH]; intros prev prev' Hp Hpp;
    [exact Hpp|].
  cbn [fold_left length repeat]. apply IH.
  - now apply nextProgress_nonneg.
  - now apply nextProgress_monotone.
Qed.

Lemma six_largest_draws_below_cap (n : nat) :
  (n <= 6)%nat -> simulate (repeat maxDraw n) < 90.
Proof.
  intros Hn.
  do 7 (destruct n as [|n]; [vm_compute; reflexivity|]).
  exfalso. lia.
Qed.

End FirstSeconds.

(** X5. During the first six seconds of a call the bar cannot reach the cap:
    after the click and at most six ticks whose draws are doubles in
    [0, 1), as [Math.random] gives them, the progress is the value the
    timer's arithmetic gives for these draws, and it is below 90. *)
Theorem cap_not_reached_in_six_ticks (w : World) (draws : list Q) :
  isLoading (ui w) = false ->
  acceptsUrl (url (ui w)) = true ->
  Forall (fun random => (0 <= random /\ random < 1)%Q /\ isDouble random)
    draws ->
  (length draws <= 6)%nat ->
  let w' := run (ClickConvert :: map Tick draws) w in
  progress (ui w') = simulate draws /\ (progress (ui w') < 90)%Q.
Proof.
  intros Hl Ha Hd Hn w'. subst w'.
  destruct (click_then_ticks draws w Hl Ha) as [-> _].
  split; [reflexivity|].
  eapply Qle_lt_trans; [|apply (six_largest_draws_below_cap _ Hn)].
  apply fold_nextProgress_bound; try apply Qle_refl.
  eapply Forall_impl; [|exact Hd].
  intros r [[H0 H1] Hr]. split; [exact H0|]. now apply double_below_one.
Qed.

Lemma cap_not_reached_in_six_ticks_witness :
  let w := step (TypeUrl "https://youtu.be/abc123") initialWorld in
  let draws := [maxDraw; maxDraw; maxDraw; maxDraw; maxDraw; maxDraw] in
  (progress (ui (run (ClickConvert :: map Tick draws) w)) < 90)%Q.
Proof.
  intros w draws.
  assert (Hd : Forall
            (fun random => (0 <= random /\ random < 1)%Q /\ isDouble random)
            draws).
  { repeat constructor; try discriminate; vm_compute; reflexivity. }
  assert (Hn : (length draws <= 6)%nat) by (cbn; repeat constructor).
  exact (proj2 (cap_not_reached_in_six_ticks w draws eq_refl eq_refl Hd Hn)).
Defined.

(** ** Timers that are never cleared *)

Lemma in_flight_has_interval (w : World) :
  Reachable w -> call w = AwaitFetch -> intervals w <> 0%nat.
Proof.
  induction 1 as [|e w Hw IH Hwf]; [discriminate|].
  destruct e; cbn [step]; try exact IH.
  - destruct (isLoading (ui w)); [exact IH|].
    destruct (acceptsUrl (url (ui w))) eqn:Ea.
    + rewrite handleConvert_accepted by assumption. discriminate.
    + rewrite handleConvert_rejected by assumption. exact IH.
  - unfold handleKeyDown. destruct (_ || _); exact IH.
  - destruct (pasteTimers w); [exact IH|].
    rewrite first_render_is_rejected. exact IH.
  - case_eq (intervals w); [intros Ei | intros n Ei]; exact IH.
  - case_eq (call w); intros; now apply IH || discriminate.
  - case_eq (call w); intros; now apply IH || discriminate.
  - case_eq (call w); intros; try now apply IH.
    revert H0. unfold afterBody. destruct (bodyOutcome response); discriminate.
  - destruct (clearTimers w); exact IH.
Qed.

Lemma leaked_with_ui (f : AppState -> AppState) (w : World) :
  leakedIntervals (with_ui f w) = leakedIntervals w.
Proof. reflexivity. Qed.

Lemma leaked_never_cleared (e : Event) (w : World) :
  Reachable w -> (leakedIntervals w <= leakedIntervals (step e w))%nat.
Proof.
  intros Hw.
  destruct e; cbn [step]; rewrite ?leaked_with_ui; try apply Nat.le_refl.
  - destruct (isLoading (ui w)) eqn:El; [apply Nat.le_refl|].
    destruct (acceptsUrl (url (ui w))) eqn:Ea.
    + rewrite handleConvert_accepted by assumption.
      unfold leakedIntervals. cbn.
      destruct (call w) eqn:Ec; [apply Nat.le_refl| |];
        (rewrite (suspended_call_is_loading w Hw) in El;
         [discriminate | congruence]).
    + rewrite handleConvert_rejected by assumption.
      rewrite leaked_with_ui. apply Nat.le_refl.
  - unfold handleKeyDown. destruct (_ || _); apply Nat.le_refl.
  - destruct (pasteTimers w); [apply Nat.le_refl|].
    rewrite first_render_is_rejected. apply Nat.le_refl.
  - destruct (intervals w) eqn:Ei; rewrite ?leaked_with_ui; apply Nat.le_refl.
  - unfold leakedIntervals.
    destruct (call w) eqn:Ec; rewrite ?Ec; cbn; rewrite ?Ec;
      try apply Nat.le_refl. apply Nat.le_pred_l.
  - unfold leakedIntervals.
    destruct (call w) eqn:Ec; rewrite ?Ec; cbn; rewrite ?Ec;
      apply Nat.le_refl.
  - unfold leakedIntervals.
    destruct (call w) eqn:Ec; rewrite ?Ec; try apply Nat.le_refl.
    unfold afterBody. destruct (bodyOutcome response); apply Nat.le_refl.
  - unfold leakedIntervals.
    destruct (clearTimers w); apply Nat.le_refl.
Qed.

(** X6. When [fetch] rejects, control passes [clearInterval]: the progress
    timer of that call is left running.  In every reachable state no event
    lowers the number of such left-over timers, a rejected [fetch] raises it
    by one, and the left-over timer keeps advancing the progress after the
    call has ended and the loading flag is off. *)
Theorem rejected_fetch_leaves_timer_running (w : World) :
  Reachable w ->
  (forall e, (leakedIntervals w <= leakedIntervals (step e w))%nat)
  /\ (call w = AwaitFetch ->
      forall message,
        let w' := step (FetchRejected message) w in
        leakedIntervals w' = S (leakedIntervals w)
        /\ call w' = NoCall
        /\ forall random, (0 < random)%Q ->
             (0 < progress (ui (step (Tick random) w')))%Q
             /\ isLoading (ui (step (Tick random) w')) = false).
Proof.
  intros Hw. split; [intros e; now apply leaked_never_cleared|].
  intros Hc message w'. subst w'.
  pose proof (in_flight_has_interval w Hw Hc) as Hi.
  unfold leakedIntervals. cbn [step]. rewrite Hc. cbn.
  destruct (intervals w) as [|n]; [now elim Hi|]. cbn.
  split; [reflexivity|]. split; [reflexivity|].
  intros random Hr. split; [|reflexivity].
  apply Q.min_glb_lt; [|reflexivity].
  unfold Js.add, Js.mul. apply double_positive.
  rewrite Qplus_0_l. apply double_positive.
  rewrite <- (Qmult_0_l 15). apply Qmult_lt_compat_r; [reflexivity|exact Hr].
Qed.

Lemma rejected_fetch_leaves_timer_running_witness :
  let w := run [TypeUrl "https://youtu.be/abc123"; ClickConvert]
               initialWorld in
  let w' := step (FetchRejected "Failed to fetch") w in
  leakedIntervals w' = 1%nat
  /\ call w' = NoCall
  /\ forall random, (0 < random)%Q ->
       (0 < progress (ui (step (Tick random) w')))%Q
       /\ isLoading (ui (step (Tick random) w')) = false.
Proof.
  intros w w'.
  assert (Hev : Forall wellFormed
            [TypeUrl "https://youtu.be/abc123"; ClickConvert]).
  { repeat constructor. }
  exact (proj2 (rejected_fetch_leaves_timer_running w
                  (reachable_run _ _ reach_init Hev))
           eq_refl "Failed to fetch").
Defined.

(** ** Requests come from clicks *)

Lemma step_sends_at_most_one (e : Event) (w : World) :
  exists rs, sent (step e w) = sent w ++ rs
             /\ (length rs <= if isClick e then 1 else 0)%nat.
Proof.
  assert (Hnone : forall w' n, sent w' = sent w ->
            exists rs, sent w' = sent w ++ rs /\ (length rs <= n)%nat).
  { intros w' n ->. exists []. rewrite app_nil_r. split; [reflexivity|].
    apply Nat.le_0_l. }
  destruct e; cbn [step isClick]; try (apply Hnone; reflexivity).
  - destruct (isLoading (ui w)); [now apply Hnone|].
    destruct (acceptsUrl (url (ui w))) eqn:Ea.
    + rewrite handleConvert_accepted by assumption. cbn [sent].
      eexists. split; [reflexivity | cbn; auto].
    + rewrite handleConvert_rejected by assumption. now apply Hnone.
  - unfold handleKeyDown. destruct (_ || _); now apply Hnone.
  - destruct (pasteTimers w); [now apply Hnone|].
    rewrite first_render_is_rejected. now apply Hnone.
  - destruct (intervals w); now apply Hnone.
  - destruct (call w); now apply Hnone.
  - destruct (call w); now apply Hnone.
  - destruct (call w); try now apply Hnone. unfold afterBody.
    destruct (bodyOutcome response); now apply Hnone.
  - destruct (clearTimers w); now apply Hnone.
Qed.

(** X7. Requests are only ever added to the end of the log, and only by a
    click on Convert: after any events the log is the old one followed by
    at most as many requests as there were clicks.  Without a click nothing
    is sent; in particular the auto-convert of the paste shortcut sends
    nothing. *)
Theorem requests_bounded_by_clicks (events : list Event) (w : World) :
  exists rs, sent (run events w) = sent w ++ rs
             /\ (length rs <= clicks events)%nat.
Proof.
  revert w. induction events as [|e events IH]; intros w.
  - exists []. cbn. now rewrite app_nil_r.
  - cbn [run fold_left]. fold (run events (step e w)).
    destruct (IH (step e w)) as [rs [Hrs Hlen]].
    destruct (step_sends_at_most_one e w) as [r1 [Hr1 Hlen1]].
    exists (r1 ++ rs). rewrite Hrs, Hr1, app_assoc. split; [reflexivity|].
    rewrite length_app. unfold clicks in *. cbn [filter].
    destruct (isClick e); cbn [length]; lia.
Qed.

(** ** The paste shortcut *)

(** X8. Ctrl+V with a clipboard text that names neither host changes
    nothing.  With a text that names one, the text is put in the input, and
    the conversion started 500 ms later is the [handleConvert] of the first
    render, which still sees the empty URL: it reports the invalid-URL
    error, sends nothing and starts no call. *)
Theorem paste_shortcut_never_converts (text : string) (w : World) :
  (acceptsUrl text = false -> step (Pasted text) w = w)
  /\ (acceptsUrl text = true ->
      let w' := step PasteTimeout (step (Pasted text) w) in
      url (ui w') = text
      /\ error (ui w') = invalidUrlMessage
      /\ sent w' = sent w
      /\ call w' = call w
      /\ isLoading (ui w') = isLoading (ui w)
      /\ pasteTimers w' = pasteTimers w).
Proof.
  split; intros Ha; cbn [step]; unfold handleKeyDown;
    fold (acceptsUrl text); rewrite Ha; [reflexivity|].
  cbn [pasteTimers]. rewrite first_render_is_rejected.
  cbn. repeat split; reflexivity.
Qed.

Lemma paste_shortcut_never_converts_witness :
  let w' := step PasteTimeout
              (step (Pasted "https://youtu.be/abc123") initialWorld) in
  url (ui w') = "https://youtu.be/abc123"
  /\ error (ui w') = invalidUrlMessage
  /\ sent w' = []
  /\ call w' = NoCall
  /\ isLoading (ui w') = false
  /\ pasteTimers w' = 0%nat.
Proof.
  exact (proj2 (paste_shortcut_never_converts
                  "https://youtu.be/abc123" initialWorld) eq_refl).
Defined.

(** ** What writes the summary *)

Lemma step_summary (e : Event) (w : World) :
  (transcript (ui (step e w)) = transcript (ui w)
   /\ videoInfo (ui (step e w)) = videoInfo (ui w))
  \/ (e = BodyRead
      /\ exists r data,
           call w = AwaitBody r /\ bodyOutcome r = inr data
           /\ transcript (ui (step e w)) = data_text data
           /\ videoInfo (ui (step e w)) = data_video_info data).
Proof.
  destruct e; cbn [step]; try (left; split; reflexivity).
  - left. destruct (isLoading (ui w)); [split; reflexivity|].
    destruct (acceptsUrl (url (ui w))) eqn:Ea.
    + rewrite handleConvert_accepted by assumption. split; reflexivity.
    + rewrite handleConvert_rejected by assumption. split; reflexivity.
  - left. unfold handleKeyDown. destruct (_ || _); split; reflexivity.
  - left. destruct (pasteTimers w); [split; reflexivity|].
    rewrite first_render_is_rejected. split; reflexivity.
  - left. destruct (intervals w); [split; reflexivity|]. cbn.
    destruct (progressTick_frame random (ui w)) as (_&Ht&_&_&_&Hv).
    now split.
  - left. destruct (call w); split; reflexivity.
  - left. destruct (call w); split; reflexivity.
  - destruct (call w) eqn:Ec; try (left; split; reflexivity).
    unfold afterBody. destruct (bodyOutcome response) as [m|data] eqn:Eo.
    + left. split; reflexivity.
    + right. split; [reflexivity|]. exists response, data.
      repeat split; first [assumption | reflexivity].
  - left. destruct (clearTimers w); split; reflexivity.
Qed.

(** X9. The summary text and the video information are written by one
    transition only, the end of a successful call: any event that changes
    either of them is the arrival of the body of an ok response without an
    error, and it stores that body's [text] and [video_info].  A failed
    call, a timer, a paste or a click leave both as they were. *)
Theorem summary_written_only_by_success (e : Event) (w : World) :
  transcript (ui (step e w)) <> transcript (ui w)
  \/ videoInfo (ui (step e w)) <> videoInfo (ui w) ->
  e = BodyRead
  /\ exists r data,
       call w = AwaitBody r /\ bodyOutcome r = inr data
       /\ transcript (ui (step e w)) = data_text data
       /\ videoInfo (ui (step e w)) = data_video_info data.
Proof.
  intros H. destruct (step_summary e w) as [[Ht Hv]|Hs]; [|exact Hs].
  destruct H as [H|H]; now elim H.
Qed.

Lemma summary_written_only_by_success_witness :
  let w := run [TypeUrl "https://youtu.be/abc123"; ClickConvert;
                FetchResolved sampleSuccess] initialWorld in
  BodyRead = BodyRead
  /\ exists r data,
       call w = AwaitBody r /\ bodyOutcome r = inr data
       /\ transcript (ui (step BodyRead w)) = data_text data
       /\ videoInfo (ui (step BodyRead w)) = data_video_info data.
Proof.
  intros w.
  assert (H : transcript (ui (step BodyRead w)) <> transcript (ui w)
              \/ videoInfo (ui (step BodyRead w)) <> videoInfo (ui w))
    by (left; discriminate).
  exact (summary_written_only_by_success BodyRead w H).
Defined.

Lemma run_without_body_keeps_transcript (events : list Event) (w : World) :
  forallb (fun e => negb (isBodyRead e)) events = true ->
  transcript (ui (run events w)) = transcript (ui w).
Proof.
  revert w. induction events as [|e events IH]; intros w; [reflexivity|].
  cbn [forallb]. rewrite andb_true_iff. intros [He Hrest].
  cbn [run fold_left]. fold (run events (step e w)).
  rewrite IH by exact Hrest.
  destruct (step_summary e w) as [[Ht _]|[-> _]]; [exact Ht | discriminate].
Qed.

(** X10. After a successful call, and whatever happens next short of the
    body of another response arriving, Copy hands the payload's text to the
    clipboard and Download saves that same text, as plain text, under the
    name "video-summary.txt". *)
Theorem copy_and_download_give_the_payload_text
    (w : World) (r : Response) (data : Payload) (events : list Event) :
  call w = AwaitBody r ->
  bodyOutcome r = inr data ->
  forallb (fun e => negb (isBodyRead e)) events = true ->
  let w' := run events (step BodyRead w) in
  clipboardText (ui w') = data_text data
  /\ handleDownload (ui w')
     = mkDownload "video-summary.txt" "text/plain" (data_text data).
Proof.
  intros Hc Ho Hev w'. subst w'.
  unfold clipboardText, handleDownload.
  rewrite run_without_body_keeps_transcript by exact Hev.
  cbn [step]. rewrite Hc, (afterBody_success _ _ _ Ho).
  split; reflexivity.
Qed.

Lemma copy_and_download_give_the_payload_text_witness :
  let w := run [TypeUrl "https://youtu.be/abc123"; ClickConvert;
                FetchResolved sampleSuccess] initialWorld in
  let w' := run [ClearTimeout; CopyDone; TypeUrl "x"; ClickConvert;
                 CopyTimeout] (step BodyRead w) in
  clipboardText (ui w') = "A short summary."
  /\ handleDownload (ui w')
     = mkDownload "video-summary.txt" "text/plain" "A short summary.".
Proof.
  intros w.
  exact (copy_and_download_give_the_payload_text w sampleSuccess samplePayload
           [ClearTimeout; CopyDone; TypeUrl "x"; ClickConvert; CopyTimeout]
           eq_refl eq_refl eq_refl).
Defined.

(** ** Every failure is reported *)

(** X11. However a call fails (rejected [fetch], failure status, body that
    does not parse, [error] field), it ends with a non-empty alert on the
    page: the message of the error, or "Failed to convert video. Please try
    again." when that message is empty; the loading flag is off and the
    progress is 0. *)
Theorem every_failure_shows_an_alert (w : World) (message : string) :
  let ends w' :=
    shownAlert (render (ui w'))
    = Some (if Js.truthy message then message else defaultErrorMessage)
    /\ shownAlert (render (ui w')) <> Some ""
    /\ isLoading (ui w') = false
    /\ call w' = NoCall
    /\ progress (ui w') = 0%Q in
  (call w = AwaitFetch -> ends (step (FetchRejected message) w))
  /\ (forall r, call w = AwaitBody r -> bodyOutcome r = inl message ->
                ends (step BodyRead w)).
Proof.
  assert (H : forall w',
            ui w' = (ui w |> catchBlock message |> finallyBlock) ->
            call w' = NoCall ->
            shownAlert (render (ui w'))
            = Some (if Js.truthy message then message else defaultErrorMessage)
            /\ shownAlert (render (ui w')) <> Some ""
            /\ isLoading (ui w') = false
            /\ call w' = NoCall
            /\ progress (ui w') = 0%Q).
  { intros w' -> Hc.
    assert (Ha : shownAlert (render (ui w |> catchBlock message |> finallyBlock))
                 = Some (Js.or_else message defaultErrorMessage)).
    { unfold shownAlert, render, catchBlock, finallyBlock. cbn.
      pose proof (or_else_default_nonempty message) as Hne.
      apply truthy_iff in Hne. now rewrite Hne. }
    split; [exact Ha|]. split.
    - rewrite Ha. intros Heq. injection Heq.
      apply or_else_default_nonempty.
    - repeat split; [exact Hc]. }
  cbv zeta. split.
  - intros Hc. cbn [step]. rewrite Hc. now apply H.
  - intros r Hc Ho. cbn [step]. rewrite Hc, (afterBody_failure _ _ _ Ho).
    now apply H.
Qed.

Lemma every_failure_shows_an_alert_witness :
  let w := run [TypeUrl "https://youtu.be/abc123"; ClickConvert;
                FetchResolved (mkResponse true 200 (TextOk "") (ParseError ""))]
               initialWorld in
  shownAlert (render (ui (step BodyRead w)))
  = Some "Failed to convert video. Please try again."
  /\ shownAlert (render (ui (step BodyRead w))) <> Some ""
  /\ isLoading (ui (step BodyRead w)) = false
  /\ call (step BodyRead w) = NoCall
  /\ progress (ui (step BodyRead w)) = 0%Q.
Proof.
  intros w.
  exact (proj2 (every_failure_shows_an_alert w "")
           (mkResponse true 200 (TextOk "") (ParseError "")) eq_refl eq_refl).
Defined.

(** ** Which responses count as success *)

Lemma bodyOutcome_success_iff (r : Response) :
  (exists data, bodyOutcome r = inr data)
  <-> ok r = true
      /\ exists data, json r = ParsedOk data
                      /\ (data_error data = None \/ data_error data = Some "").
Proof.
  unfold bodyOutcome. destruct (ok r); cbn.
  - destruct (json r) as [data|m].
    + destruct (data_error data) as [[|c e]|] eqn:Ee; cbn.
      * split; [|now exists data]. intros _. split; [reflexivity|].
        exists data. split; [reflexivity|]. now right.
      * split; [intros [d H]; discriminate|].
        intros [_ [d [Hd [H|H]]]]; injection Hd as <-; congruence.
      * split; [|now exists data]. intros _. split; [reflexivity|].
        exists data. split; [reflexivity|]. now left.
    + split; [intros [d H]; discriminate|].
      intros [_ [d [H _]]]. discriminate.
  - split; [|intros [H _]; discriminate].
    intros [d H]. destruct (text_read r); discriminate.
Qed.

(** X12. A call whose response has arrived ends without an error message
    exactly when the status is ok, the body parses, and its [error] field is
    absent or the empty string; an ok response whose body carries a
    non-empty [error], or does not parse, ends as a failure, whatever
    [text] it has. *)
Theorem call_succeeds_iff (w : World) (r : Response) :
  call w = AwaitBody r ->
  (error (ui (step BodyRead w)) = ""
   <-> ok r = true
       /\ exists data, json r = ParsedOk data
                       /\ (data_error data = None
                           \/ data_error data = Some ""))
  /\ (error (ui (step BodyRead w)) = "" ->
      exists data, json r = ParsedOk data
                   /\ transcript (ui (step BodyRead w)) = data_text data).
Proof.
  intros Hc. cbn [step]. rewrite Hc.
  rewrite <- bodyOutcome_success_iff.
  destruct (bodyOutcome r) as [m|data] eqn:Eo.
  - rewrite (afterBody_failure _ _ _ Eo). cbn.
    pose proof (or_else_default_nonempty m) as Hne. split.
    + split; [intros H; now elim Hne | intros [d H]; discriminate].
    + intros H. now elim Hne.
  - rewrite (afterBody_success _ _ _ Eo). cbn. split.
    + split; [intros _; now exists data | reflexivity].
    + intros _. exists data. split; [|reflexivity].
      revert Eo. unfold bodyOutcome.
      destruct (ok r); [|cbn; destruct (text_read r); discriminate].
      destruct (json r) as [d|m]; [|discriminate].
      destruct (data_error d) as [e|]; [destruct (Js.truthy e)|];
        cbn; congruence.
Qed.

Lemma call_succeeds_iff_witness :
  let r := mkResponse true 200 (TextOk "")
             (ParsedOk (mkPayload (Some "") "Text" None None None)) in
  let w := run [TypeUrl "https://youtu.be/abc123"; ClickConvert;
                FetchResolved r] initialWorld in
  error (ui (step BodyRead w)) = ""
  <-> ok r = true
      /\ exists data, json r = ParsedOk data
                      /\ (data_error data = None \/ data_error data = Some "").
Proof.
  intros r w. exact (proj1 (call_succeeds_iff w r eq_refl)).
Defined.

(** ** The guard *)

(** X13. The guard of [handleConvert] and of the paste shortcut is a
    substring test: a text is accepted exactly when "youtube.com" or
    "youtu.be" occurs somewhere in it.  So any text around a host name is
    accepted, URL or not, and the empty text is rejected. *)
Theorem guard_is_a_substring_test (u before after : string) :
  (acceptsUrl u = true <->
   exists b a, u = (b ++ "youtube.com" ++ a)%string
               \/ u = (b ++ "youtu.be" ++ a)%string)
  /\ acceptsUrl (before ++ "youtube.com" ++ after) = true
  /\ acceptsUrl (before ++ "youtu.be" ++ after) = true
  /\ acceptsUrl "" = false.
Proof.
  split; [apply acceptsUrl_iff|].
  split; [|split; [|reflexivity]];
    apply acceptsUrl_iff; exists before, after; auto.
Qed.

Lemma guard_is_a_substring_test_witness :
  acceptsUrl "watch it on youtube.com tonight" = true
  <-> exists b a,
        "watch it on youtube.com tonight" = (b ++ "youtube.com" ++ a)%string
        \/ "watch it on youtube.com tonight" = (b ++ "youtu.be" ++ a)%string.
Proof.
  exact (proj1 (guard_is_a_substring_test
                  "watch it on youtube.com tonight" "" "")).
Defined.

(** ** The sidebar and the error *)

Lemma step_sidebar (e : Event) (w : World) :
  isSidebarOpen (ui (step e w)) = isSidebarOpen (ui w)
  \/ (e = CloseSidebar /\ isSidebarOpen (ui (step e w)) = false)
  \/ (e = ClickConvert /\ acceptsUrl (url (ui w)) = true
      /\ isLoading (ui w) = false
      /\ isSidebarOpen (ui (step e w)) = true).
Proof.
  destruct e; cbn [step]; try (left; reflexivity).
  - destruct (isLoading (ui w)) eqn:El; [now left|].
    destruct (acceptsUrl (url (ui w))) eqn:Ea.
    + rewrite handleConvert_accepted by assumption. right. right.
      repeat split; reflexivity.
    + rewrite handleConvert_rejected by assumption. now left.
  - right. left. split; reflexivity.
  - left. unfold handleKeyDown. destruct (_ || _); reflexivity.
  - left. destruct (pasteTimers w); [reflexivity|].
    now rewrite first_render_is_rejected.
  - left. destruct (intervals w); [reflexivity|]. cbn.
    unfold progressTick. now destruct (Js.ltb (progress (ui w)) 90).
  - left. now destruct (call w).
  - left. now destruct (call w).
  - left. destruct (call w); try reflexivity.
    unfold afterBody. now destruct (bodyOutcome response).
  - left. now destruct (clearTimers w).
Qed.

(** X14. The sidebar is opened only by a click on Convert that passes the
    guard, and closed only by its close button or the overlay: no timer, no
    response and no failure closes it. *)
Theorem sidebar_opened_by_convert_closed_by_user (e : Event) (w : World) :
  (isSidebarOpen (ui w) = false -> isSidebarOpen (ui (step e w)) = true ->
   e = ClickConvert /\ acceptsUrl (url (ui w)) = true
   /\ isLoading (ui w) = false)
  /\ (isSidebarOpen (ui w) = true -> isSidebarOpen (ui (step e w)) = false ->
      e = CloseSidebar).
Proof.
  destruct (step_sidebar e w) as [H|[[He H]|[He [Ha [Hl H]]]]];
    split; intros H0 H1; try congruence; auto.
Qed.

Lemma sidebar_opened_by_convert_closed_by_user_witness :
  let w := step (TypeUrl "https://youtu.be/abc123") initialWorld in
  ClickConvert = ClickConvert
  /\ acceptsUrl (url (ui w)) = true
  /\ isLoading (ui w) = false.
Proof.
  intros w.
  exact (proj1 (sidebar_opened_by_convert_closed_by_user ClickConvert w)
           eq_refl eq_refl).
Defined.

Lemma step_error_cleared (e : Event) (w : World) :
  error (ui (step e w)) <> ""
  \/ error (ui (step e w)) = error (ui w)
  \/ (e = ClickConvert /\ acceptsUrl (url (ui w)) = true
      /\ isLoading (ui w) = false)
  \/ (e = BodyRead
      /\ exists r data, call w = AwaitBody r /\ bodyOutcome r = inr data).
Proof.
  destruct e; cbn [step]; try (right; left; reflexivity).
  - destruct (isLoading (ui w)) eqn:El; [right; now left|].
    destruct (acceptsUrl (url (ui w))) eqn:Ea.
    + right. right. left. repeat split.
    + rewrite handleConvert_rejected by assumption. left. discriminate.
  - left. discriminate.
  - right. left. unfold handleKeyDown. destruct (_ || _); reflexivity.
  - left. discriminate.
  - destruct (pasteTimers w); [right; now left|].
    rewrite first_render_is_rejected. left. discriminate.
  - right. left. destruct (intervals w); [reflexivity|]. cbn.
    now destruct (progressTick_frame random (ui w)) as (_&_&_&->&_).
  - destruct (call w); try (right; now left).
    left. cbn. apply or_else_default_nonempty.
  - right. left. now destruct (call w).
  - destruct (call w) eqn:Ec; try (right; now left).
    unfold afterBody. destruct (bodyOutcome response) as [m|data] eqn:Eo.
    + left. cbn. apply or_else_default_nonempty.
    + right. right. right. split; [reflexivity|]. now exists response, data.
  - right. left. now destruct (clearTimers w).
Qed.

(** X15. An error message, once set, is only removed by the start of a new
    call (a click on Convert that passes the guard) or by the end of a
    successful call; every other event keeps it or replaces it by another
    non-empty message. *)
Theorem error_removed_only_by_convert (e : Event) (w : World) :
  error (ui w) <> "" ->
  error (ui (step e w)) = "" ->
  (e = ClickConvert /\ acceptsUrl (url (ui w)) = true
   /\ isLoading (ui w) = false)
  \/ (e = BodyRead
      /\ exists r data, call w = AwaitBody r /\ bodyOutcome r = inr data).
Proof.
  intros H0 H1.
  destruct (step_error_cleared e w) as [H|[H|H]]; [now elim H | | exact H].
  rewrite H in H1. now elim H0.
Qed.

Lemma error_removed_only_by_convert_witness :
  let w := run [CopyFailed; TypeUrl "https://youtu.be/abc123"] initialWorld in
  (ClickConvert = ClickConvert /\ acceptsUrl (url (ui w)) = true
   /\ isLoading (ui w) = false)
  \/ (ClickConvert = BodyRead
      /\ exists r data, call w = AwaitBody r /\ bodyOutcome r = inr data).
Proof.
  intros w.
  assert (H0 : error (ui w) <> "") by discriminate.
  exact (error_removed_only_by_convert ClickConvert w H0 eq_refl).
Defined.

(** ** The first version, to the end of the call *)

(** X16. In the first version of the component a call on an accepted URL
    sets the loading flag, opens the sidebar, clears the error and the copy
    flag, and sends one request, whose body has the single field [url].
    The call ends on the state the component has by then, whatever other
    handlers did to it in between: the loading flag is switched off, the
    URL, the sidebar and the copy flag are left as they are.  If the
    response is ok, parses and carries no error, the transcript becomes the
    body's [text] and the error is left as it is; otherwise the transcript
    is left as it is and the error becomes the (non-empty) message of the
    failure. *)
Theorem legacy_call_ends
    (seen current s : Legacy.AppState) (f : LegacyCall.Fetched) :
  acceptsUrl (Legacy.url seen) = true ->
  let started := fst (Legacy.handleConvert seen current) in
  let s' := LegacyCall.settle f s in
  snd (Legacy.handleConvert seen current)
  = Some (mkRequest "http://localhost:8001/transcribe-json/" "POST"
            [("Content-Type", "application/json")]
            [("url", JString (Legacy.url seen))])
  /\ Legacy.isLoading started = true
  /\ Legacy.isSidebarOpen started = true
  /\ Legacy.error started = ""
  /\ Legacy.copySuccess started = false
  /\ Legacy.isLoading s' = false
  /\ Legacy.isSidebarOpen s' = Legacy.isSidebarOpen s
  /\ Legacy.copySuccess s' = Legacy.copySuccess s
  /\ Legacy.url s' = Legacy.url s
  /\ match f with
     | LegacyCall.Resolved r =>
         match bodyOutcome r with
         | inr data =>
             Legacy.transcript s' = data_text data
             /\ Legacy.error s' = Legacy.error s
         | inl message =>
             Legacy.transcript s' = Legacy.transcript s
             /\ Legacy.error s' = Js.or_else message defaultErrorMessage
             /\ Legacy.error s' <> ""
         end
     | LegacyCall.Rejected message =>
         Legacy.transcript s' = Legacy.transcript s
         /\ Legacy.error s' = Js.or_else message defaultErrorMessage
         /\ Legacy.error s' <> ""
     end.
Proof.
  intros Ha started s'. subst started s'. unfold Legacy.handleConvert.
  rewrite guard_rejects, Ha. cbn [negb fst snd].
  do 5 (split; [reflexivity|]).
  destruct f as [message|r]; cbn [LegacyCall.settle].
  - unfold LegacyCall.fetchRejected. cbn.
    repeat split. apply or_else_default_nonempty.
  - unfold LegacyCall.afterFetch.
    destruct (bodyOutcome r) as [message|data]; cbn.
    + repeat split. apply or_else_default_nonempty.
    + repeat split.
Qed.

Lemma legacy_call_ends_witness :
  let seen :=
    Legacy.mkApp "https://youtu.be/abc123" "old" false false "" true in
  let s :=
    Legacy.mkApp "typed meanwhile" "old" true false "Failed to copy" false in
  snd (Legacy.handleConvert seen seen)
  = Some (mkRequest "http://localhost:8001/transcribe-json/" "POST"
            [("Content-Type", "application/json")]
            [("url", JString "https://youtu.be/abc123")])
  /\ Legacy.isLoading (LegacyCall.settle (LegacyCall.Resolved sampleSuccess) s)
     = false
  /\ Legacy.transcript
       (LegacyCall.settle (LegacyCall.Resolved sampleSuccess) s)
     = "A short summary."
  /\ Legacy.error (LegacyCall.settle (LegacyCall.Resolved sampleSuccess) s)
     = "Failed to copy".
Proof.
  intros seen s.
  destruct (legacy_call_ends seen seen s (LegacyCall.Resolved sampleSuccess)
              eq_refl)
    as (Hr & _ & _ & _ & _ & Hl & _ & _ & _ & Ht & He).
  split; [exact Hr | split; [exact Hl | split; [exact Ht | exact He]]].
Defined.

(** ** A second call within two seconds *)

Lemma run_app (events1 events2 : list Event) (w : World) :
  run (events1 ++ events2) w = run events2 (run events1 w).
Proof. unfold run. apply fold_left_app. Qed.

(** X17. The timeout that clears the progress two seconds after a success
    is not cancelled by the next call.  If Convert is clicked again before
    it fires, the new call is in flight with the progress its timer has
    built up from 0, and the old timeout then throws it back to 0 with an
    empty message, while the call is still in flight and the bar still
    shown. *)
Theorem timeout_of_previous_call_resets_next
    (w : World) (r : Response) (data : Payload) (draws : list Q) :
  call w = AwaitBody r ->
  bodyOutcome r = inr data ->
  acceptsUrl (url (ui w)) = true ->
  let started := run (BodyRead :: ClickConvert :: map Tick draws) w in
  let w' := step ClearTimeout started in
  call started = AwaitFetch
  /\ progress (ui started) = simulate draws
  /\ call w' = AwaitFetch
  /\ isLoading (ui w') = true
  /\ progress (ui w') = 0%Q
  /\ progressMessage (ui w') = ""
  /\ shownPercent (render (ui w')) = Some 0%Z.
Proof.
  intros Hc Ho Ha started w'. subst w' started.
  change (run (BodyRead :: ClickConvert :: map Tick draws) w)
    with (run (map Tick draws) (step ClickConvert (step BodyRead w))).
  cbn [step]. rewrite Hc, (afterBody_success _ _ _ Ho).
  cbn [ui finallyBlock consume setLoading isLoading setError setVideoInfo
       setTranscript setProgressMessage setProgress].
  rewrite handleConvert_accepted by exact Ha.
  rewrite run_ticks by (cbn; discriminate).
  cbn [with_ui ui call clearTimers].
  split; [reflexivity|]. split; [now rewrite ticks_progress|].
  split; [reflexivity|]. unfold clearProgress. cbn.
  rewrite ticks_isLoading. cbn.
  rewrite shownPercent_loading
    by (cbn; rewrite ticks_isLoading; reflexivity).
  repeat split.
Qed.

Lemma timeout_of_previous_call_resets_next_witness :
  let w := run [TypeUrl "https://youtu.be/abc123"; ClickConvert;
                FetchResolved sampleSuccess] initialWorld in
  let started :=
    run (BodyRead :: ClickConvert :: map Tick [1 # 2; 9 # 10]) w in
  progress (ui started) = 21%Q
  /\ call (step ClearTimeout started) = AwaitFetch
  /\ progress (ui (step ClearTimeout started)) = 0%Q.
Proof.
  intros w started.
  destruct (timeout_of_previous_call_resets_next w sampleSuccess samplePayload
              [1 # 2; 9 # 10] eq_refl eq_refl eq_refl)
    as (_ & Hp & Hc & _ & H0 & _).
  split; [exact Hp | split; [exact Hc | exact H0]].
Defined.

(** ** What the next click will send *)

Lemma step_request (e : Event) (w : World) :
  convertRequest (ui (step e w)) = convertRequest (ui w)
  \/ (exists text, e = TypeUrl text)
  \/ (exists o, e = SelectSummary o)
  \/ (exists text, e = Pasted text /\ acceptsUrl text = true).
Proof.
  assert (Hsame : forall s,
            url s = url (ui w) -> summaryType s = summaryType (ui w) ->
            convertRequest s = convertRequest (ui w)).
  { intros s Hu Ht. unfold convertRequest, requestBody. now rewrite Hu, Ht. }
  destruct e; cbn [step];
    try (left; apply Hsame; reflexivity).
  - right. left. now exists text.
  - right. right. left. now exists o.
  - left. destruct (isLoading (ui w)); [reflexivity|].
    destruct (acceptsUrl (url (ui w))) eqn:Ea.
    + now rewrite handleConvert_accepted.
    + now rewrite handleConvert_rejected.
  - unfold handleKeyDown. fold (acceptsUrl text).
    destruct (acceptsUrl text) eqn:Ea; [|now left].
    right. right. right. now exists text.
  - left. destruct (pasteTimers w); [reflexivity|].
    now rewrite first_render_is_rejected.
  - left. destruct (intervals w); [reflexivity|]. cbn.
    destruct (progressTick_frame random (ui w)) as (Hu&_&_&_&Ht&_).
    now apply Hsame.
  - left. now destruct (call w).
  - left. now destruct (call w).
  - left. destruct (call w); try reflexivity.
    unfold afterBody. now destruct (bodyOutcome response).
  - left. now destruct (clearTimers w).
Qed.

(** X18. The request that a click on Convert would send is changed only by
    what the user enters: typing in the input, choosing a summary type, or
    pasting an accepted text.  No response, failure, timer or click changes
    it, so a click after a failed call sends the same request again. *)
Theorem request_changed_only_by_user (e : Event) (w : World) :
  convertRequest (ui (step e w)) <> convertRequest (ui w) ->
  (exists text, e = TypeUrl text)
  \/ (exists o, e = SelectSummary o)
  \/ (exists text, e = Pasted text /\ acceptsUrl text = true).
Proof.
  intros H. destruct (step_request e w) as [Hs|Hu]; [now elim H | exact Hu].
Qed.

Lemma request_changed_only_by_user_witness :
  (exists text, SelectSummary Academic = TypeUrl text)
  \/ (exists o, SelectSummary Academic = SelectSummary o)
  \/ (exists text, SelectSummary Academic = Pasted text
                   /\ acceptsUrl text = true).
Proof.
  assert (H : convertRequest (ui (step (SelectSummary Academic) initialWorld))
              <> convertRequest (ui initialWorld)) by discriminate.
  exact (request_changed_only_by_user (SelectSummary Academic) initialWorld H).
Defined.

(** * The push scripts *)

Lemma commands_app (a b : list Sh.Line) :
  Sh.commands (a ++ b) = Sh.commands a ++ Sh.commands b.
Proof.
  induction a as [|[text|c] a IH]; cbn; [reflexivity | exact IH |].
  now rewrite IH.
Qed.

(** X19. [push-both.sh] without a (non-empty) first argument prints its
    usage line, runs no [git] command and exits with status 1.  With one it
    runs [git add .], [git commit -m] with that argument, [git push origin
    main] and [git push gitlab main], in this order, whatever each of them
    answers; it then prints the success line and exits with status 0, even
    when every [git] command failed. *)
Theorem push_both_reports_success_regardless
    (args : list string) (env : Sh.Env) :
  let r := Sh.pushBoth args env in
  (nth 0 args "" = "" ->
   Sh.commands (Sh.lines r) = []
   /\ Sh.lines r
      = [Sh.Echo ("Usage: ./push-both.sh " ++ Sh.dquote ++ "commit message"
                  ++ Sh.dquote)]
   /\ Sh.last_status r = 1%nat)
  /\ (nth 0 args "" <> "" ->
      Sh.commands (Sh.lines r)
      = [Sh.Add "."; Sh.Commit (nth 0 args ""); Sh.Push "origin" "main";
         Sh.Push "gitlab" "main"]
      /\ In (Sh.Echo "✅ Successfully pushed to both GitHub and GitLab!")
            (Sh.lines r)
      /\ Sh.last_status r = 0%nat).
Proof.
  intros r. subst r. unfold Sh.pushBoth. split; intros H.
  - rewrite H. cbn. repeat split.
  - apply truthy_iff in H. rewrite H. cbn. repeat split.
    do 8 right. now left.
Qed.

Lemma push_both_reports_success_regardless_witness :
  let failing : Sh.Env := fun _ _ => Sh.mkAnswer 1 "" in
  let r := Sh.pushBoth ["fix typo"] failing in
  Sh.commands (Sh.lines r)
  = [Sh.Add "."; Sh.Commit "fix typo"; Sh.Push "origin" "main";
     Sh.Push "gitlab" "main"]
  /\ In (Sh.Echo "✅ Successfully pushed to both GitHub and GitLab!")
        (Sh.lines r)
  /\ Sh.last_status r = 0%nat.
Proof.
  intros failing r.
  assert (H : nth 0 ["fix typo"] "" <> "") by discriminate.
  exact (proj2 (push_both_reports_success_regardless ["fix typo"] failing) H).
Defined.

Section ShellSteps.

Variable env : Sh.Env.

Lemma commands_echo (text : string) (sh : Sh.State) :
  Sh.commands (Sh.lines (Sh.echo text sh)) = Sh.commands (Sh.lines sh).
Proof. cbn. rewrite commands_app. cbn. apply app_nil_r. Qed.

Lemma commands_git (c : Sh.Git) (sh : Sh.State) :
  Sh.commands (Sh.lines (Sh.git env c sh)) = Sh.commands (Sh.lines sh) ++ [c].
Proof. cbn. now rewrite commands_app. Qed.

Lemma status_git (c : Sh.Git) (sh : Sh.State) :
  Sh.last_status (Sh.git env c sh)
  = Sh.exit_code (env (Sh.commands (Sh.lines sh)) c).
Proof. reflexivity. Qed.

Lemma commands_leave (n : nat) (sh : Sh.State) :
  Sh.commands (Sh.lines (Sh.leave n sh)) = Sh.commands (Sh.lines sh).
Proof. reflexivity. Qed.

Lemma commands_print_status (text : string) (sh : Sh.State) :
  Sh.commands (Sh.lines (Sh.print_status text sh)) = Sh.commands (Sh.lines sh).
Proof. apply commands_echo. Qed.

Lemma commands_print_success (text : string) (sh : Sh.State) :
  Sh.commands (Sh.lines (Sh.print_success text sh))
  = Sh.commands (Sh.lines sh).
Proof. apply commands_echo. Qed.

Lemma commands_print_error (text : string) (sh : Sh.State) :
  Sh.commands (Sh.lines (Sh.print_error text sh)) = Sh.commands (Sh.lines sh).
Proof. apply commands_echo. Qed.

Lemma commands_print_header (text : string) (sh : Sh.State) :
  Sh.commands (Sh.lines (Sh.print_header text sh)) = Sh.commands (Sh.lines sh).
Proof. unfold Sh.print_header. now rewrite !commands_echo. Qed.

End ShellSteps.

Create Rewrite HintDb shell.

#[local] Hint Rewrite commands_echo commands_git status_git commands_leave
  commands_print_status commands_print_success commands_print_error
  commands_print_header : shell.

(** The new commands of [push_to_repositories], in closed form. *)
Lemma push_to_repositories_commands (env : Sh.Env) (sh : Sh.State) :
  let h0 := Sh.commands (Sh.lines sh) in
  let shown := Sh.stdout (env h0 Sh.BranchShowCurrent) in
  let b := if Js.truthy shown then shown else "main" in
  let h := h0 ++ Sh.BranchShowCurrent
              :: (if Js.truthy shown then [] else [Sh.BranchMove "main"]) in
  let r := Sh.push_to_repositories env sh in
  match Sh.exit_code (env h (Sh.Push "origin" b)) with
  | S _ =>
      Sh.commands (Sh.lines r) = h ++ [Sh.Push "origin" b]
      /\ Sh.last_status r = 1%nat
  | O =>
      Sh.commands (Sh.lines r)
      = h ++ [Sh.Push "origin" b; Sh.Push "gitlab" b]
      /\ Sh.last_status r
         = match Sh.exit_code
                   (env (h ++ [Sh.Push "origin" b]) (Sh.Push "gitlab" b)) with
           | O => 0%nat
           | S _ => 1%nat
           end
  end.
Proof.
  cbv zeta. unfold Sh.push_to_repositories, Sh.capture.
  rewrite commands_print_header.
  set (shown := Sh.stdout (env (Sh.commands (Sh.lines sh))
                             Sh.BranchShowCurrent)).
  set (b := if Js.truthy shown then shown else "main").
  set (pushed := Sh.git env (Sh.Push "origin" b) _).
  assert (Hh : Sh.commands (Sh.lines pushed)
               = (Sh.commands (Sh.lines sh)
                  ++ Sh.BranchShowCurrent
                       :: (if Js.truthy shown then []
                           else [Sh.BranchMove "main"]))
                 ++ [Sh.Push "origin" b]).
  { subst pushed. destruct (Js.truthy shown);
      autorewrite with shell; rewrite <- ?app_assoc; reflexivity. }
  assert (Hs : Sh.last_status pushed
               = Sh.exit_code
                   (env (Sh.commands (Sh.lines sh)
                         ++ Sh.BranchShowCurrent
                              :: (if Js.truthy shown then []
                                  else [Sh.BranchMove "main"]))
                      (Sh.Push "origin" b))).
  { subst pushed. destruct (Js.truthy shown);
      autorewrite with shell; rewrite <- ?app_assoc; reflexivity. }
  clearbody pushed. rewrite <- Hs.
  destruct (Sh.last_status pushed) as [|n1].
  - set (pushed2 := Sh.git env (Sh.Push "gitlab" b) _).
    assert (Hh2 : Sh.commands (Sh.lines pushed2)
                  = Sh.commands (Sh.lines pushed) ++ [Sh.Push "gitlab" b]).
    { subst pushed2. now autorewrite with shell. }
    assert (Hs2 : Sh.last_status pushed2
                  = Sh.exit_code (env (Sh.commands (Sh.lines pushed))
                                    (Sh.Push "gitlab" b))).
    { subst pushed2. now autorewrite with shell. }
    clearbody pushed2. rewrite Hh in Hs2, Hh2. rewrite <- Hs2.
    destruct (Sh.last_status pushed2) as [|n2];
      autorewrite with shell; rewrite Hh2, <- app_assoc; split; reflexivity.
  - autorewrite with shell. rewrite Hh. split; reflexivity.
Qed.

(** X20. [push_to_repositories] asks [git] for the current branch and takes
    "main" when there is none (after [git branch -M main]); it pushes that
    branch to [origin], and only if this push exits with 0 does it push the
    same branch to [gitlab].  It returns 0 exactly when both pushes exit
    with 0, and 1 otherwise: a failed push to GitHub leaves GitLab
    untouched. *)
Theorem push_to_repositories_stops_at_first_failure
    (env : Sh.Env) (sh : Sh.State) :
  let h0 := Sh.commands (Sh.lines sh) in
  let shown := Sh.stdout (env h0 Sh.BranchShowCurrent) in
  let b := if Js.truthy shown then shown else "main" in
  let h := h0 ++ Sh.BranchShowCurrent
              :: (if Js.truthy shown then [] else [Sh.BranchMove "main"]) in
  let github := Sh.exit_code (env h (Sh.Push "origin" b)) in
  let gitlab :=
    Sh.exit_code (env (h ++ [Sh.Push "origin" b]) (Sh.Push "gitlab" b)) in
  let r := Sh.push_to_repositories env sh in
  Sh.commands (Sh.lines r)
  = h ++ Sh.Push "origin" b
         :: (if (github =? 0)%nat then [Sh.Push "gitlab" b] else [])
  /\ Sh.last_status r
     = (if (github =? 0)%nat && (gitlab =? 0)%nat then 0 else 1)%nat
  /\ (Sh.last_status r = 0%nat <-> github = 0%nat /\ gitlab = 0%nat).
Proof.
  cbv zeta. pose proof (push_to_repositories_commands env sh) as H.
  cbv zeta in H. revert H.
  set (shown := Sh.stdout (env (Sh.commands (Sh.lines sh))
                             Sh.BranchShowCurrent)).
  set (b := if Js.truthy shown then shown else "main").
  set (h := Sh.commands (Sh.lines sh) ++ _).
  destruct (Sh.exit_code (env h (Sh.Push "origin" b))) as [|n1].
  - destruct (Sh.exit_code (env (h ++ [Sh.Push "origin" b])
                              (Sh.Push "gitlab" b))) as [|n2];
      intros [Hc Hs]; rewrite Hc, Hs; cbn;
      (split; [reflexivity|]); (split; [reflexivity|]).
    + split; auto.
    + split; [discriminate | intros [_ H]; discriminate].
  - intros [Hc Hs]. rewrite Hc, Hs. cbn.
    split; [reflexivity|]. split; [reflexivity|].
    split; [discriminate | intros [H _]; discriminate].
Qed.

Lemma push_to_repositories_stops_at_first_failure_witness :
  let env : Sh.Env := fun _ c =>
    match c with
    | Sh.BranchShowCurrent => Sh.mkAnswer 0 "dev"
    | Sh.Push "origin" _ => Sh.mkAnswer 1 ""
    | _ => Sh.mkAnswer 0 ""
    end in
  let r := Sh.push_to_repositories env Sh.start in
  Sh.commands (Sh.lines r) = [Sh.BranchShowCurrent; Sh.Push "origin" "dev"]
  /\ Sh.last_status r = 1%nat.
Proof.
  intros env r.
  destruct (push_to_repositories_stops_at_first_failure env Sh.start)
    as [Hc [Hs _]].
  split; [exact Hc | exact Hs].
Defined.
